(** * Scheduling helpers of k8s.io/component-helpers/scheduling/corev1

    A shallow embedding of [helpers.go]: the taint matcher
    ([TolerationsTolerateTaint], [FindMatchingUntoleratedTaint],
    [getFilteredTaints]) and the resource aggregator ([PodRequests],
    [PodLimits], [addResourceList], [maxResourceList],
    [reuseOrClearResourceList]).

    Go maps are reference objects that the aggregator updates in place, so
    the aggregator is embedded over an explicit store of maps and of
    quantity backing cells, threaded through a small state monad; the
    taint matcher is pure. *)

From stdpp Require Import gmap strings list fin_maps.
From Stdlib Require Import ZArith.

Local Open Scope Z_scope.

(* ===================================================================== *)
(** * Part I: the taint matcher, definitions                              *)
(* ===================================================================== *)

(** Modelled from the spec: [v1.Taint], declared in k8s.io/api/core/v1:
    "key, value, effect, plus optional timestamp metadata". *)
Record Taint := mkTaint {
  TaintKey : string;
  TaintValue : string;
  TaintEffect : string;
  TimeAdded : option Z
}.

(** Modelled from the spec: [v1.Toleration], declared in
    k8s.io/api/core/v1; the matcher never looks inside it. *)
Record Toleration := mkToleration {
  TolKey : string;
  TolOperator : string;
  TolValue : string;
  TolEffect : string;
  TolerationSeconds : option Z
}.

(** The Go zero value [v1.Taint{}]. *)
Definition zeroTaint : Taint := mkTaint "" "" "" None.

(** [taintsFilterFunc], a predicate on a taint; a nil function value is
    [None]. *)
Definition taintsFilterFunc := option (Taint → bool).

(** The method [ToleratesTaint] of [v1.Toleration] is declared in
    k8s.io/api/core/v1, outside the files at hand; the matcher takes it as
    its first argument, [tolerates]. *)
Definition toleratesFunc := Toleration → Taint → bool.

(** [TolerationsTolerateTaint]: the loop returns [true] at the first
    toleration that tolerates the taint and [false] when it runs out. *)
Fixpoint TolerationsTolerateTaint (tolerates : toleratesFunc)
    (tolerations : list Toleration) (taint : Taint) : bool :=
  match tolerations with
  | [] => false
  | t :: rest =>
      if tolerates t taint then true
      else TolerationsTolerateTaint tolerates rest taint
  end.

(** The loop of [getFilteredTaints], with [filteredTaints] as the slice
    accumulated so far. *)
Fixpoint filterLoop (inclusionFilter : Taint → bool) (taints : list Taint)
    (filteredTaints : list Taint) : list Taint :=
  match taints with
  | [] => filteredTaints
  | taint :: rest =>
      if negb (inclusionFilter taint)
      then filterLoop inclusionFilter rest filteredTaints
      else filterLoop inclusionFilter rest (filteredTaints ++ [taint])
  end.

(** [getFilteredTaints]: a nil filter returns the slice itself. *)
Definition getFilteredTaints (taints : list Taint)
    (inclusionFilter : taintsFilterFunc) : list Taint :=
  match inclusionFilter with
  | None => taints
  | Some f => filterLoop f taints []
  end.

(** The scanning loop of [FindMatchingUntoleratedTaint]. *)
Fixpoint scanLoop (tolerates : toleratesFunc) (tolerations : list Toleration)
    (filteredTaints : list Taint) : Taint * bool :=
  match filteredTaints with
  | [] => (zeroTaint, false)
  | taint :: rest =>
      if negb (TolerationsTolerateTaint tolerates tolerations taint)
      then (taint, true)
      else scanLoop tolerates tolerations rest
  end.

(** [FindMatchingUntoleratedTaint]. *)
Definition FindMatchingUntoleratedTaint (tolerates : toleratesFunc)
    (taints : list Taint) (tolerations : list Toleration)
    (inclusionFilter : taintsFilterFunc) : Taint * bool :=
  let filteredTaints := getFilteredTaints taints inclusionFilter in
  scanLoop tolerates tolerations filteredTaints.

(** What the spec calls "keeping only taints for which the filter returns
    true; nil filter means keep all". *)
Definition keeps (inclusionFilter : taintsFilterFunc) (t : Taint) : bool :=
  match inclusionFilter with
  | None => true
  | Some f => f t
  end.

(** ** Taints and tolerations used as examples *)

(** Modelled from the spec: the rule by which one toleration tolerates a
    taint, "exact match or existence-operator match, effect match or
    empty-effect wildcard"; the method itself is not in the files at
    hand.  It is used for the examples only. *)
Definition exampleTolerates : toleratesFunc := λ t taint,
  (String.eqb (TolEffect t) "" || String.eqb (TolEffect t) (TaintEffect taint))
  && String.eqb (TolKey t) (TaintKey taint)
  && (String.eqb (TolOperator t) "Exists"
      || String.eqb (TolValue t) (TaintValue taint)).

Definition taintA : Taint := mkTaint "a" "1" "NoSchedule" None.
Definition taintB : Taint := mkTaint "b" "2" "NoExecute" None.
Definition tolerationB : Toleration := mkToleration "b" "Equal" "2" "" None.
Definition tolerationOther : Toleration :=
  mkToleration "c" "Exists" "" "NoExecute" None.

(** The filter "NoExecute only". *)
Definition onlyNoExecute : taintsFilterFunc :=
  Some (λ t, String.eqb (TaintEffect t) "NoExecute").

(* ===================================================================== *)
(** * Part II: the resource aggregator, definitions                       *)
(* ===================================================================== *)

(** ** The store *)

(** Addresses of maps and of quantity backing cells. *)
Abbreviation loc := positive.

(** Modelled from the spec: [resource.Quantity] (k8s.io/apimachinery), of
    which the files at hand hold no declaration.  The spec describes "a
    numeric value with defined magnitude comparison, addition (mutates a
    local copy, never the original), a zero test, and a cheap deep-copy",
    "a value type requiring an explicit copy whenever stored into a new
    map slot to avoid aliasing".  A quantity is therefore a struct value
    whose number is held either inline ([amount], when [dec] is [None]) or
    in a separately allocated backing cell ([dec = Some l]); a plain Go
    assignment copies the struct and so shares the cell.  Numbers are
    integers of any size: amounts counted in a fixed smallest unit. *)
Record Quantity := mkQuantity {
  amount : Z;
  dec : option loc
}.

(** [v1.ResourceList] is a Go map type: a value of it is nil or a
    reference to a map object. *)
Definition ResourceList := option loc.

(** [ContainerType = byte] and its two constants, [1 << iota]. *)
Definition ContainerType := Z.
Definition ContainerTypeContainers : ContainerType := Z.shiftl 1 0.
Definition ContainerTypeInitContainers : ContainerType := Z.shiftl 1 1.

(** The store: the map objects, the backing cells of quantities, the
    iteration-order oracle for [range] over a map ([order], asked at the
    running count [tick] of ranges started so far: Go leaves the order
    unspecified and lets it change from one loop to the next), and the
    state [obs] that the caller's [ContainerFn] keeps for itself. *)
Record World (St : Type) := mkWorld {
  maps : gmap loc (gmap string Quantity);
  cells : gmap loc Z;
  tick : nat;
  order : nat → list (string * Quantity) → list (string * Quantity);
  obs : St
}.
Arguments mkWorld {St}.
Arguments maps {St}.
Arguments cells {St}.
Arguments tick {St}.
Arguments order {St}.
Arguments obs {St}.

Definition set_maps {St} (m : gmap loc (gmap string Quantity)) (w : World St)
    : World St :=
  mkWorld m (cells w) (tick w) (order w) (obs w).
Definition set_cells {St} (c : gmap loc Z) (w : World St) : World St :=
  mkWorld (maps w) c (tick w) (order w) (obs w).
Definition set_tick {St} (n : nat) (w : World St) : World St :=
  mkWorld (maps w) (cells w) n (order w) (obs w).
Definition set_obs {St} (o : St) (w : World St) : World St :=
  mkWorld (maps w) (cells w) (tick w) (order w) o.

(** The entries of the map object at [r] (none when nothing is there). *)
Definition contents {St} (w : World St) (r : loc) : gmap string Quantity :=
  default ∅ (maps w !! r).

(** The entries seen through a [ResourceList] value; a nil map reads as
    empty. *)
Definition listOf {St} (w : World St) (rl : ResourceList)
    : gmap string Quantity :=
  match rl with
  | Some r => contents w r
  | None => ∅
  end.

(** The number a quantity stands for. *)
Definition qval {St} (w : World St) (q : Quantity) : Z :=
  match dec q with
  | Some l => default 0 (cells w !! l)
  | None => amount q
  end.

(** ** The state monad *)

Definition M (St A : Type) : Type := World St → A * World St.

Global Instance M_ret {St} : MRet (M St) := λ A a w, (a, w).
Global Instance M_bind {St} : MBind (M St) :=
  λ A B k c w, let '(a, w1) := c w in k a w1.

(** [for _, x := range l { body }] over a slice or a snapshot of entries. *)
Fixpoint forEach {St A} (l : list A) (body : A → M St unit) : M St unit :=
  match l with
  | [] => mret tt
  | x :: rest => body x;; forEach rest body
  end.

(** ** Go map operations *)

(** [make(v1.ResourceList, 4)]: a new, empty map object. *)
Definition make {St} : M St loc := λ w,
  let r := fresh (dom (maps w)) in
  (r, set_maps (<[r := ∅]> (maps w)) w).

(** [value, ok := list[name]]. *)
Definition mapIndex {St} (list : loc) (name : string)
    : M St (option Quantity) := λ w,
  (contents w list !! name, w).

(** [list[name] = q]. *)
Definition mapAssign {St} (list : loc) (name : string) (q : Quantity)
    : M St unit := λ w,
  (tt, set_maps (<[list := <[name := q]> (contents w list)]> (maps w)) w).

(** [delete(list, name)]. *)
Definition mapDelete {St} (list : loc) (name : string) : M St unit := λ w,
  (tt, set_maps (<[list := delete name (contents w list)]> (maps w)) w).

(** [range] over a map: the entries present when the loop starts, in the
    order the oracle picks for this loop.  The loops of [helpers.go] write
    or delete no entry but the one under the key being visited, so
    visiting the entries as they stood at the start is what Go does. *)
Definition mapRange {St} (rl : ResourceList)
    : M St (list (string * Quantity)) := λ w,
  (order w (tick w) (map_to_list (listOf w rl)), set_tick (S (tick w)) w).

(** ** Quantity operations *)

(** Allocation of a backing cell holding [z]. *)
Definition allocCell {St} (z : Z) : M St loc := λ w,
  let l := fresh (dom (cells w)) in
  (l, set_cells (<[l := z]> (cells w)) w).

(** A write to the backing cell at [l]. *)
Definition writeCell {St} (l : loc) (z : Z) : M St unit := λ w,
  (tt, set_cells (<[l := z]> (cells w)) w).

(** Modelled from the spec: reading the number of a quantity. *)
Definition Value {St} (q : Quantity) : M St Z := λ w, (qval w q, w).

(** Modelled from the spec: [Quantity.DeepCopy], the "cheap deep-copy":
    the struct is copied and, when the number lives in a backing cell, the
    cell is duplicated. *)
Definition DeepCopy {St} (q : Quantity) : M St Quantity :=
  match dec q with
  | None => mret q
  | Some _ =>
      v ← Value q;
      l ← allocCell v;
      mret (mkQuantity (amount q) (Some l))
  end.

(** Modelled from the spec: moving the receiver's number into a backing
    cell of its own when it is held inline. *)
Definition ToDec {St} (q : Quantity) : M St Quantity :=
  match dec q with
  | Some _ => mret q
  | None =>
      l ← allocCell (amount q);
      mret (mkQuantity 0 (Some l))
  end.

(** Modelled from the spec: [q.Add(y)], "addition (mutates a local copy,
    never the original)".  [q] is the receiver, a local variable of the
    caller, and the result is its value afterwards; [y] is passed by
    value.  Two inline numbers are added in the struct; otherwise the sum
    is written to the receiver's backing cell, in place. *)
Definition Add {St} (q y : Quantity) : M St Quantity :=
  match dec q, dec y with
  | None, None => mret (mkQuantity (amount q + amount y) None)
  | _, _ =>
      q' ← ToDec q;
      a ← Value q';
      b ← Value y;
      match dec q' with
      | Some l => writeCell l (a + b);; mret q'
      | None => mret q'
      end
  end.

(** Modelled from the spec: [q.Cmp(y)], the "magnitude comparison":
    -1, 0 or 1. *)
Definition Cmp {St} (q y : Quantity) : M St Z :=
  a ← Value q;
  b ← Value y;
  mret (match a ?= b with Lt => -1 | Eq => 0 | Gt => 1 end).

(** Modelled from the spec: [q.IsZero()], the "zero test". *)
Definition IsZero {St} (q : Quantity) : M St bool :=
  a ← Value q;
  mret (a =? 0).

(** ** Pods and options *)

(** [v1.ResourceRequirements], [v1.Container], [v1.PodSpec], [v1.Pod]:
    the fields the aggregator reads. *)
Record ResourceRequirements := mkResourceRequirements {
  Limits : ResourceList;
  Requests : ResourceList
}.

Record Container := mkContainer {
  Resources : ResourceRequirements
}.

Record PodSpec := mkPodSpec {
  Containers : list Container;
  InitContainers : list Container;
  Overhead : ResourceList
}.

Record Pod := mkPod {
  Spec : PodSpec
}.

(** [PodResourcesOptions].  [ContainerFn] is the caller's code: it is given
    the container's resource list and the container type, may read the
    store, and keeps what it learns in state of its own ([obs]); a nil
    function value is [None]. *)
Record PodResourcesOptions (St : Type) := mkPodResourcesOptions {
  Reuse : ResourceList;
  ExcludeOverhead : bool;
  ContainerFn : option (ResourceList → ContainerType → World St → St)
}.
Arguments mkPodResourcesOptions {St}.
Arguments Reuse {St}.
Arguments ExcludeOverhead {St}.
Arguments ContainerFn {St}.

(** The Go zero value [PodResourcesOptions{}]. *)
Definition zeroOptions {St} : PodResourcesOptions St :=
  mkPodResourcesOptions None false None.

(** [if opts.ContainerFn != nil { opts.ContainerFn(res, containerType) }]. *)
Definition callContainerFn {St} (opts : PodResourcesOptions St)
    (res : ResourceList) (containerType : ContainerType) : M St unit :=
  match ContainerFn opts with
  | Some fn => λ w, (tt, set_obs (fn res containerType w) w)
  | None => mret tt
  end.

(** ** The aggregator *)

(** The body of the loop of [addResourceList], at the entry
    [name, quantity] of [newList]. *)
Definition addEntry {St} (list : loc) (name : string) (quantity : Quantity)
    : M St unit :=
  r ← mapIndex list name;
  match r with
  | None =>
      c ← DeepCopy quantity;
      mapAssign list name c
  | Some value =>
      value' ← Add value quantity;
      mapAssign list name value'
  end.

(** [addResourceList] adds the resources in [newList] to [list].  [list]
    is a map object: both callers pass the result of
    [reuseOrClearResourceList], which is never nil. *)
Definition addResourceList {St} (list : loc) (newList : ResourceList)
    : M St unit :=
  entries ← mapRange newList;
  forEach entries (λ '(name, quantity), addEntry list name quantity).

(** The body of the loop of [maxResourceList]:
    [!ok || quantity.Cmp(value) > 0]. *)
Definition maxEntry {St} (list : loc) (name : string) (quantity : Quantity)
    : M St unit :=
  r ← mapIndex list name;
  match r with
  | None =>
      c ← DeepCopy quantity;
      mapAssign list name c
  | Some value =>
      cmp ← Cmp quantity value;
      if 0 <? cmp then
        c ← DeepCopy quantity;
        mapAssign list name c
      else mret tt
  end.

(** [maxResourceList] sets [list] to the greater of [list]/[newList] for
    every resource in [newList]. *)
Definition maxResourceList {St} (list : loc) (newList : ResourceList)
    : M St unit :=
  entries ← mapRange newList;
  forEach entries (λ '(name, quantity), maxEntry list name quantity).

(** [reuseOrClearResourceList]. *)
Definition reuseOrClearResourceList {St} (reuse : ResourceList) : M St loc :=
  match reuse with
  | None => make
  | Some r =>
      entries ← mapRange reuse;
      forEach entries (λ '(k, _), mapDelete r k);;
      mret r
  end.

(** [if opts == nil { opts = &PodResourcesOptions{} }]. *)
Definition orDefault {St} (opts : option (PodResourcesOptions St))
    : PodResourcesOptions St :=
  match opts with
  | None => zeroOptions
  | Some o => o
  end.

(** [PodRequests]; the result is the accumulator, a map object. *)
Definition PodRequests {St} (pod : Pod)
    (opts : option (PodResourcesOptions St)) : M St loc :=
  let opts := orDefault opts in
  reqs ← reuseOrClearResourceList (Reuse opts);
  forEach (Containers (Spec pod)) (λ container,
    callContainerFn opts (Requests (Resources container))
      ContainerTypeContainers;;
    addResourceList reqs (Requests (Resources container)));;
  forEach (InitContainers (Spec pod)) (λ container,
    callContainerFn opts (Requests (Resources container))
      ContainerTypeInitContainers;;
    maxResourceList reqs (Requests (Resources container)));;
  (if negb (ExcludeOverhead opts) && bool_decide (Overhead (Spec pod) ≠ None)
   then addResourceList reqs (Overhead (Spec pod))
   else mret tt);;
  mret reqs.

(** The body of the overhead loop of [PodLimits]:
    [ok && !value.IsZero()]. *)
Definition overheadEntry {St} (limits : loc) (name : string)
    (quantity : Quantity) : M St unit :=
  r ← mapIndex limits name;
  match r with
  | Some value =>
      z ← IsZero value;
      if negb z then
        value' ← Add value quantity;
        mapAssign limits name value'
      else mret tt
  | None => mret tt
  end.

(** The overhead loop of [PodLimits]: overhead is added to the limits
    that are there and are not zero. *)
Definition addOverheadToLimits {St} (limits : loc) (overhead : ResourceList)
    : M St unit :=
  entries ← mapRange overhead;
  forEach entries (λ '(name, quantity), overheadEntry limits name quantity).

(** [PodLimits]; the result is the accumulator, a map object. *)
Definition PodLimits {St} (pod : Pod)
    (opts : option (PodResourcesOptions St)) : M St loc :=
  let opts := orDefault opts in
  limits ← reuseOrClearResourceList (Reuse opts);
  forEach (Containers (Spec pod)) (λ container,
    callContainerFn opts (Limits (Resources container))
      ContainerTypeContainers;;
    addResourceList limits (Limits (Resources container)));;
  forEach (InitContainers (Spec pod)) (λ container,
    callContainerFn opts (Limits (Resources container))
      ContainerTypeInitContainers;;
    maxResourceList limits (Limits (Resources container)));;
  (if negb (ExcludeOverhead opts) && bool_decide (Overhead (Spec pod) ≠ None)
   then addOverheadToLimits limits (Overhead (Spec pod))
   else mret tt);;
  mret limits.

(* ===================================================================== *)
(** * Part III: what the results are compared with                        *)
(* ===================================================================== *)

(** The numbers held by a resource list: name to number. *)
Definition view {St} (w : World St) (rl : ResourceList) : gmap string Z :=
  qval w <$> listOf w rl.

(** Element-wise sum of two number maps: a name of either side is kept,
    a name of both sides gets the sum. *)
Definition sumList (acc new : gmap string Z) : gmap string Z :=
  union_with (λ a b, Some (a + b)) acc new.

(** Element-wise maximum of two number maps. *)
Definition maxList (acc new : gmap string Z) : gmap string Z :=
  union_with (λ a b, Some (Z.max a b)) acc new.

(** Overhead on limits: a limit that is there and is not zero grows by the
    overhead of its name; nothing else changes. *)
Definition growList (acc overhead : gmap string Z) : gmap string Z :=
  map_imap (λ k a,
    Some (if a =? 0 then a
          else match overhead !! k with Some b => a + b | None => a end)) acc.

(** The numbers present under [k] in a sequence of number maps, and the
    element-wise sum of the sequence at [k]: nothing when no map has the
    name, the sum of what is there otherwise. *)
Definition present (k : string) (ls : list (gmap string Z)) : list Z :=
  omap (λ m, m !! k) ls.

Definition sumAt (k : string) (ls : list (gmap string Z)) : option Z :=
  match present k ls with
  | [] => None
  | zs => Some (foldr Z.add 0 zs)
  end.

(** The resource lists a pod refers to. *)
Definition requestLists (cs : list Container) : list ResourceList :=
  (λ c, Requests (Resources c)) <$> cs.
Definition limitLists (cs : list Container) : list ResourceList :=
  (λ c, Limits (Resources c)) <$> cs.

Definition podLists (pod : Pod) : list ResourceList :=
  requestLists (Containers (Spec pod)) ++ limitLists (Containers (Spec pod))
  ++ requestLists (InitContainers (Spec pod))
  ++ limitLists (InitContainers (Spec pod))
  ++ [Overhead (Spec pod)].

(** The overhead that takes part: none when it is excluded or not
    declared. *)
Definition overheadOf {St} (pod : Pod) (opts : option (PodResourcesOptions St))
    : ResourceList :=
  if ExcludeOverhead (orDefault opts) then None else Overhead (Spec pod).

(** Sum over the regular containers, then maximum with each init
    container, over the numbers the lists hold in [w]. *)
Definition merged {St} (w : World St) (regular init : list ResourceList)
    : gmap string Z :=
  foldl maxList (foldl sumList ∅ (view w <$> regular)) (view w <$> init).

Definition requestsOf {St} (w : World St) (pod : Pod)
    (opts : option (PodResourcesOptions St)) : gmap string Z :=
  sumList (merged w (requestLists (Containers (Spec pod)))
                    (requestLists (InitContainers (Spec pod))))
          (view w (overheadOf pod opts)).

Definition limitsOf {St} (w : World St) (pod : Pod)
    (opts : option (PodResourcesOptions St)) : gmap string Z :=
  growList (merged w (limitLists (Containers (Spec pod)))
                     (limitLists (InitContainers (Spec pod))))
           (view w (overheadOf pod opts)).

(** ** Well-formed stores and calls *)

(** A quantity whose backing cell, if it has one, is allocated. *)
Definition cell_ok {St} (w : World St) (q : Quantity) : Prop :=
  match dec q with
  | Some l => l ∈ dom (cells w)
  | None => True
  end.

(** No map entry refers to a cell that is not there. *)
Definition heap_closed {St} (w : World St) : Prop :=
  map_Forall (λ _ m, map_Forall (λ _ q, cell_ok w q) m) (maps w).

(** Whatever order a [range] takes, it visits each entry once. *)
Definition fair_order {St} (w : World St) : Prop :=
  ∀ n l, order w n l ≡ₚ l.

(** A resource list is nil or an allocated map. *)
Definition allocated {St} (w : World St) (rl : ResourceList) : Prop :=
  match rl with
  | Some r => r ∈ dom (maps w)
  | None => True
  end.

(** A call is well formed in [w]: the store is closed, every range visits
    each entry once, and the pod's lists and the map to reuse are nil or
    allocated maps. *)
Definition call_ok {St} (w : World St) (pod : Pod)
    (opts : option (PodResourcesOptions St)) : Prop :=
  heap_closed w ∧ fair_order w ∧
  Forall (allocated w) (podLists pod) ∧
  allocated w (Reuse (orDefault opts)).

(** The map to reuse, if any, is a map of the caller's, not one of the
    pod's own lists. *)
Definition reuse_apart {St} (pod : Pod)
    (opts : option (PodResourcesOptions St)) : Prop :=
  ∀ r, Reuse (orDefault opts) = Some r → Some r ∉ podLists pod.

(** [Acc w0 acc V w]: since [w0], only the map at [acc] and cells allocated
    after [w0] were written; the entries of [acc] own their cells, one
    each; and the numbers of [acc] are [V]. *)
Record Acc {St} (w0 : World St) (acc : loc) (V : gmap string Z)
    (w : World St) : Prop := mkAcc {
  acc_maps : ∀ r, r ≠ acc → maps w !! r = maps w0 !! r;
  acc_here : is_Some (maps w !! acc);
  acc_cells : ∀ l, l ∈ dom (cells w0) → cells w !! l = cells w0 !! l;
  acc_owned : ∀ k q l, contents w acc !! k = Some q → dec q = Some l →
              (l ∉ dom (cells w0)) ∧ (l ∈ dom (cells w));
  acc_sep : ∀ k1 k2 q1 q2 l,
              contents w acc !! k1 = Some q1 → contents w acc !! k2 = Some q2 →
              dec q1 = Some l → dec q2 = Some l → k1 = k2;
  acc_view : qval w <$> contents w acc = V;
  acc_order : order w = order w0
}.

(** One step of a loop on the entry [k] of [acc]: no other entry of [acc]
    changes, and no cell that was there changes but the one of the entry
    under [k]. *)
Definition step_frame {St} (w : World St) (acc : loc) (k : string)
    (w' : World St) : Prop :=
  (∀ k', k' ≠ k → contents w' acc !! k' = contents w acc !! k') ∧
  (∀ l, l ∈ dom (cells w) →
        (∀ q, contents w acc !! k = Some q → dec q ≠ Some l) →
        cells w' !! l = cells w !! l).

(** What a list reads as while the accumulator at [acc] holds the numbers
    [V]: the accumulator itself reads as [V], any other list as it is in
    [w0]. *)
Definition cur {St} (w0 : World St) (acc : loc) (V : gmap string Z)
    (rl : ResourceList) : gmap string Z :=
  if decide (rl = Some acc) then V else view w0 rl.

(** Sum over the regular containers, then maximum with each init
    container, each list being read when its turn comes. *)
Definition mergedA {St} (w0 : World St) (acc : loc)
    (regular init : list ResourceList) : gmap string Z :=
  foldl (λ V rl, maxList V (cur w0 acc V rl))
        (foldl (λ V rl, sumList V (cur w0 acc V rl)) ∅ regular) init.

Definition requestsOfA {St} (w0 : World St) (acc : loc) (pod : Pod)
    (opts : option (PodResourcesOptions St)) : gmap string Z :=
  let L := mergedA w0 acc (requestLists (Containers (Spec pod)))
                          (requestLists (InitContainers (Spec pod))) in
  sumList L (cur w0 acc L (overheadOf pod opts)).

Definition limitsOfA {St} (w0 : World St) (acc : loc) (pod : Pod)
    (opts : option (PodResourcesOptions St)) : gmap string Z :=
  let L := mergedA w0 acc (limitLists (Containers (Spec pod)))
                          (limitLists (InitContainers (Spec pod))) in
  growList L (cur w0 acc L (overheadOf pod opts)).

(** The store once [PodRequests] or [PodLimits], started in [w], has
    obtained its accumulator: the map to reuse is emptied, or a new map is
    there. *)
Definition afterClear {St} (opts : option (PodResourcesOptions St))
    (w : World St) : World St :=
  snd (reuseOrClearResourceList (Reuse (orDefault opts)) w).

(** The outcome of a computation started in [w]. *)
Definition post {St A} (c : M St A) (w : World St)
    (Q : A → World St → Prop) : Prop :=
  Q (fst (c w)) (snd (c w)).

(** ** One visited entry, on numbers *)

(** What visiting the entry [(name, z)] does to the numbers of the
    accumulator: [g] gives the number under [name] afterwards from the one
    before. *)
Definition stepG (g : option Z → Z → option Z) (V : gmap string Z)
    (e : string * Z) : gmap string Z :=
  partial_alter (λ o, g o e.2) e.1 V.

Definition g_add (o : option Z) (z : Z) : option Z :=
  Some (match o with Some a => a + z | None => z end).

Definition g_max (o : option Z) (z : Z) : option Z :=
  Some (match o with Some a => if a <? z then z else a | None => z end).

Definition g_grow (o : option Z) (z : Z) : option Z :=
  match o with
  | Some a => Some (if a =? 0 then a else a + z)
  | None => None
  end.

(** The entries of a range with their numbers. *)
Definition numbers {St} (w : World St) (entries : list (string * Quantity))
    : list (string * Z) :=
  prod_map id (qval w) <$> entries.

(** A number map holds nothing but zero under [k]. *)
Definition zeroAt (k : string) (m : gmap string Z) : Prop :=
  ∀ z, m !! k = Some z → z = 0.

(** ** Inputs left alone *)

(** In [w'] every list of the pod has the entries and the numbers it had
    in [w]. *)
Definition inputs_kept {St} (w : World St) (pod : Pod) (w' : World St)
    : Prop :=
  ∀ rl, rl ∈ podLists pod → listOf w' rl = listOf w rl ∧ view w' rl = view w rl.

(** A call that started in [w] and returned the accumulator [acc] in [w']
    wrote no map but [acc] and no cell that was there in [w]; the pod's
    lists are as they were; every backing cell of an entry of [acc] was
    allocated by the call, so that overwriting it, or assigning to an entry
    of [acc], leaves the pod's lists as they were. *)
Definition untouched {St} (w : World St) (pod : Pod) (acc : loc)
    (w' : World St) : Prop :=
  (∀ r, r ≠ acc → maps w' !! r = maps w !! r) ∧
  (∀ l, l ∈ dom (cells w) → cells w' !! l = cells w !! l) ∧
  inputs_kept w pod w' ∧
  (∀ k q l, contents w' acc !! k = Some q → dec q = Some l →
     (l ∉ dom (cells w)) ∧
     ∀ z, inputs_kept w pod (snd (writeCell l z w'))) ∧
  (∀ k q, inputs_kept w pod (snd (mapAssign acc k q w'))).

(** ** Overhead excluded, entries overwritten *)

(** The same options with the overhead excluded. *)
Definition excludingOverhead {St} (opts : option (PodResourcesOptions St))
    : option (PodResourcesOptions St) :=
  Some (mkPodResourcesOptions (Reuse (orDefault opts)) true
          (ContainerFn (orDefault opts))).

(** The last step of [PodLimits] when the overhead is not excluded: the
    overhead loop, if an overhead is declared. *)
Definition overheadStep {St} (pod : Pod) (limits : loc) : M St unit :=
  if bool_decide (Overhead (Spec pod) ≠ None)
  then addOverheadToLimits limits (Overhead (Spec pod))
  else mret tt.


(** ** Deciding well-formedness on a given store *)

Global Instance cell_ok_dec {St} (w : World St) q : Decision (cell_ok w q).
Proof. unfold cell_ok. destruct (dec q); apply _. Defined.

Global Instance heap_closed_dec {St} (w : World St) : Decision (heap_closed w).
Proof. unfold heap_closed. apply _. Defined.

Global Instance allocated_dec {St} (w : World St) rl : Decision (allocated w rl).
Proof. unfold allocated. destruct rl; apply _. Defined.

(** ** Stores and pods used as examples *)

(** A quantity held inline. *)
Definition inlineQ (z : Z) : Quantity := mkQuantity z None.
(** A quantity held in the backing cell [l]. *)
Definition cellQ (l : loc) : Quantity := mkQuantity 0 (Some l).

(** Seven map objects: requests {cpu:1, memory:1Gi}, {cpu:2} and {cpu:5};
    limits {cpu:2} and {memory:0}; an overhead {cpu:1, memory:1}; and a
    map of the caller with entries left from earlier use.  [ord] is the
    order oracle. *)
Definition exWorld
    (ord : nat → list (string * Quantity) → list (string * Quantity))
    : World unit :=
  mkWorld
    (<[1%positive := <["cpu" := inlineQ 1]> {["memory" := cellQ 1]}]>
     (<[2%positive := {["cpu" := inlineQ 2]}]>
     (<[3%positive := {["cpu" := cellQ 2]}]>
     (<[4%positive := {["cpu" := cellQ 3]}]>
     (<[5%positive := {["memory" := inlineQ 0]}]>
     (<[6%positive := <["cpu" := inlineQ 1]> {["memory" := cellQ 4]}]>
     (<[7%positive := <["cpu" := inlineQ 7]> {["gpu" := cellQ 2]}]> ∅)))))))
    (<[1%positive := 1073741824]>
     (<[2%positive := 5]> (<[3%positive := 2]> (<[4%positive := 1]> ∅))))
    0 ord tt.

Definition exContainer (limits requests : ResourceList) : Container :=
  mkContainer (mkResourceRequirements limits requests).

(** Regular containers requesting {cpu:1, memory:1Gi} and {cpu:2}, an init
    container requesting {cpu:5}, no overhead. *)
Definition mixedPod : Pod :=
  mkPod (mkPodSpec
    [exContainer None (Some 1%positive); exContainer None (Some 2%positive)]
    [exContainer None (Some 3%positive)]
    None).

(** Regular containers only, with limits {cpu:2} and {memory:0} and the
    requests above, and the overhead {cpu:1, memory:1}. *)
Definition overheadPod : Pod :=
  mkPod (mkPodSpec
    [exContainer (Some 4%positive) (Some 1%positive);
     exContainer (Some 5%positive) (Some 2%positive)]
    []
    (Some 6%positive)).

(** Options that reuse the caller's map. *)
Definition reuseOptions : PodResourcesOptions unit :=
  mkPodResourcesOptions (Some 7%positive) false None.

(** The example store with other entries left in the caller's map. *)
Definition exWorldOther
    (ord : nat → list (string * Quantity) → list (string * Quantity))
    : World unit :=
  set_maps (<[7%positive := {["memory" := cellQ 3]}]> (maps (exWorld ord)))
           (exWorld ord).

(** Options that name the requests of the first container of
    [overheadPod] as the map to reuse. *)
Definition aliasOptions : PodResourcesOptions unit :=
  mkPodResourcesOptions (Some 1%positive) false None.


(* ===================================================================== *)
(** * Part III, continued: the annotation reader, observers               *)
(* ===================================================================== *)

(** [GetAvoidPodsFromNodeAnnotations].  The type [v1.AvoidPods], the key
    [v1.PreferAvoidPodsAnnotationKey] and [json.Unmarshal] are declared
    outside the files at hand: the function takes the zero value of the
    type, the key and the decoder as its first arguments.  The decoder is
    given the text and the variable to fill and gives back the variable
    and the error, [None] for nil.  [annotations] is a Go map of strings:
    a nil map has length 0, and indexing a map with a key that is not
    there gives the empty string. *)
Definition GetAvoidPodsFromNodeAnnotations {AvoidPods Error : Type}
    (zeroAvoidPods : AvoidPods) (PreferAvoidPodsAnnotationKey : string)
    (Unmarshal : string → AvoidPods → AvoidPods * option Error)
    (annotations : gmap string string) : AvoidPods * option Error :=
  let avoidPods := zeroAvoidPods in
  if bool_decide (0 < size annotations)%nat
     && negb (String.eqb
                (default "" (annotations !! PreferAvoidPodsAnnotationKey)) "")
  then
    let '(avoidPods, err) :=
      Unmarshal (default "" (annotations !! PreferAvoidPodsAnnotationKey))
                avoidPods in
    match err with
    | Some e => (avoidPods, Some e)
    | None => (avoidPods, None)
    end
  else (avoidPods, None).

(** A [ContainerFn] that looks at its arguments and at its own state only:
    [step res containerType] takes the state before the call to the state
    after it. *)
Definition observer {St} (step : ResourceList → ContainerType → St → St)
    : ResourceList → ContainerType → World St → St :=
  λ res containerType w, step res containerType (obs w).

(** The [ContainerFn] that appends its arguments to a log. *)
Definition recorder
    : ResourceList → ContainerType
      → World (list (ResourceList * ContainerType))
      → list (ResourceList * ContainerType) :=
  observer (λ res containerType log, log ++ [(res, containerType)]).

(** The store of the examples, with an empty log as the observer's state. *)
Definition exWorldLog : World (list (ResourceList * ContainerType)) :=
  mkWorld (maps (exWorld (λ _ l, l))) (cells (exWorld (λ _ l, l))) 0
          (λ _ l, l) [].

(** A decoder for the examples: it fails on any text but ["{}"]. *)
Definition exampleUnmarshal (text : string) (v : list string)
    : list string * option string :=
  if String.eqb text "{}" then (v, None) else (v, Some "invalid").

(** The calls a pod gives rise to, in the order the two container loops
    make them: the list of each regular container with
    [ContainerTypeContainers], then the list of each init container with
    [ContainerTypeInitContainers]; [get] picks the requests or the
    limits. *)
Definition containerCalls (get : Container → ResourceList) (pod : Pod)
    : list (ResourceList * ContainerType) :=
  ((λ c, (get c, ContainerTypeContainers)) <$> Containers (Spec pod))
  ++ ((λ c, (get c, ContainerTypeInitContainers))
        <$> InitContainers (Spec pod)).

(** A number map without a negative number. *)
Definition nonNegative (m : gmap string Z) : Prop :=
  map_Forall (λ _ z, 0 ≤ z) m.

Global Instance nonNegative_dec m : Decision (nonNegative m).
Proof. unfold nonNegative. apply _. Defined.
(* ===================================================================== *)
(** * Part IV: the taint matcher, properties                              *)
(* ===================================================================== *)

Lemma filterLoop_filter f taints acc :
  filterLoop f taints acc = acc ++ List.filter f taints.
Proof.
  revert acc. induction taints as [|t rest IH]; intros acc; simpl.
  - by rewrite app_nil_r.
  - destruct (f t); simpl.
    + rewrite IH. by rewrite <- app_assoc.
    + apply IH.
Qed.

Lemma getFilteredTaints_filter taints flt :
  getFilteredTaints taints flt = List.filter (keeps flt) taints.
Proof.
  destruct flt as [f|]; simpl.
  - apply filterLoop_filter.
  - induction taints as [|t rest IH]; simpl; [done | by rewrite <- IH].
Qed.

Lemma tolerate_exists tolerates tolerations taint :
  TolerationsTolerateTaint tolerates tolerations taint = true ↔
  ∃ t, t ∈ tolerations ∧ tolerates t taint = true.
Proof.
  induction tolerations as [|t rest IH]; simpl.
  - split; [done | intros (t & Hin & _); by apply elem_of_nil in Hin].
  - destruct (tolerates t taint) eqn:E.
    + split; [intros _; exists t; split; [left | done] | done].
    + rewrite IH. split.
      * intros (t' & Hin & Ht'). exists t'. split; [by right | done].
      * intros (t' & Hin & Ht'). apply elem_of_cons in Hin as [-> | Hin].
        -- congruence.
        -- by exists t'.
Qed.

(** The scan over an already filtered slice: either it stops at the first
    untolerated taint, every taint before it being tolerated, or every
    taint is tolerated and the zero taint comes back. *)
Lemma scanLoop_spec tolerates tolerations l :
  (∃ pre t post, l = pre ++ t :: post ∧
      scanLoop tolerates tolerations l = (t, true) ∧
      TolerationsTolerateTaint tolerates tolerations t = false ∧
      Forall (λ t', TolerationsTolerateTaint tolerates tolerations t' = true) pre)
  ∨ (scanLoop tolerates tolerations l = (zeroTaint, false) ∧
      Forall (λ t', TolerationsTolerateTaint tolerates tolerations t' = true) l).
Proof.
  induction l as [|t rest IH]; simpl.
  - right. by split.
  - destruct (TolerationsTolerateTaint tolerates tolerations t) eqn:E; simpl.
    + destruct IH as [(pre & t' & post & -> & Hs & Ht' & Hpre) | [Hs Hall]].
      * left. exists (t :: pre), t', post. repeat split; try done.
        by constructor.
      * right. split; [done | by constructor].
    + left. exists [], t, rest. repeat split; try done.
Qed.

(** The scan of the filtered slice, read on the original slice: the result
    is the first taint, in the order of [taints], that the filter keeps and
    that is not tolerated. *)
Lemma scan_filter_spec tolerates tolerations (P : Taint → bool) taints :
  (∃ pre t post, taints = pre ++ t :: post ∧
      scanLoop tolerates tolerations (List.filter P taints) = (t, true) ∧
      P t = true ∧
      TolerationsTolerateTaint tolerates tolerations t = false ∧
      (∀ t', t' ∈ pre → P t' = true →
             TolerationsTolerateTaint tolerates tolerations t' = true))
  ∨ (scanLoop tolerates tolerations (List.filter P taints) = (zeroTaint, false) ∧
      (∀ t', t' ∈ taints → P t' = true →
             TolerationsTolerateTaint tolerates tolerations t' = true)).
Proof.
  induction taints as [|t rest IH]; simpl.
  - right. split; [done | intros t' Hin; by apply elem_of_nil in Hin].
  - destruct (P t) eqn:EP; simpl.
    + destruct (TolerationsTolerateTaint tolerates tolerations t) eqn:E; simpl.
      * destruct IH as [(pre & t' & post & -> & Hs & HP & Ht' & Hpre) | [Hs Hall]].
        -- left. exists (t :: pre), t', post. repeat split; try done.
           intros t'' Hin HP''. apply elem_of_cons in Hin as [-> | Hin]; eauto.
        -- right. split; [done |].
           intros t'' Hin HP''. apply elem_of_cons in Hin as [-> | Hin]; eauto.
      * left. exists [], t, rest. repeat split; try done.
        intros t' Hin. by apply elem_of_nil in Hin.
    + destruct IH as [(pre & t' & post & -> & Hs & HP & Ht' & Hpre) | [Hs Hall]].
      * left. exists (t :: pre), t', post. repeat split; try done.
        intros t'' Hin HP''. apply elem_of_cons in Hin as [-> | Hin];
          [congruence | eauto].
      * right. split; [done |].
        intros t'' Hin HP''. apply elem_of_cons in Hin as [-> | Hin];
          [congruence | eauto].
Qed.

(** C4.  [FindMatchingUntoleratedTaint] restricts the taints to those the
    filter keeps (a nil filter keeps all, and the restriction keeps the
    original order), and then either returns, with [true], the first taint
    in the original order that is kept and not tolerated, or, when every
    kept taint is tolerated (in particular when none is kept), returns the
    zero taint with [false]. *)
Theorem FindMatchingUntoleratedTaint_first tolerates taints tolerations
    (inclusionFilter : taintsFilterFunc) :
  getFilteredTaints taints inclusionFilter
    = List.filter (keeps inclusionFilter) taints
  ∧ ((∃ pre t post, taints = pre ++ t :: post ∧
        FindMatchingUntoleratedTaint tolerates taints tolerations
          inclusionFilter = (t, true) ∧
        keeps inclusionFilter t = true ∧
        TolerationsTolerateTaint tolerates tolerations t = false ∧
        (∀ t', t' ∈ pre → keeps inclusionFilter t' = true →
               TolerationsTolerateTaint tolerates tolerations t' = true))
     ∨ (FindMatchingUntoleratedTaint tolerates taints tolerations
          inclusionFilter = (zeroTaint, false) ∧
        (∀ t', t' ∈ taints → keeps inclusionFilter t' = true →
               TolerationsTolerateTaint tolerates tolerations t' = true))).
Proof.
  split; [apply getFilteredTaints_filter |].
  unfold FindMatchingUntoleratedTaint.
  rewrite getFilteredTaints_filter.
  apply scan_filter_spec.
Qed.

Lemma FindMatchingUntoleratedTaint_first_witness :
  getFilteredTaints [taintA; taintB] onlyNoExecute = [taintB]
  ∧ snd (FindMatchingUntoleratedTaint exampleTolerates [taintA; taintB]
           [tolerationB] None) = true
  ∧ FindMatchingUntoleratedTaint exampleTolerates [taintA; taintB]
      [tolerationB] onlyNoExecute = (zeroTaint, false).
Proof.
  split; [| split].
  - rewrite (proj1 (FindMatchingUntoleratedTaint_first exampleTolerates
                      [taintA; taintB] [tolerationB] onlyNoExecute)).
    reflexivity.
  - destruct (proj2 (FindMatchingUntoleratedTaint_first exampleTolerates
                       [taintA; taintB] [tolerationB] None))
      as [(pre & t & post & _ & -> & _) | [_ Hall]]; [reflexivity |].
    specialize (Hall taintA (list_elem_of_here _ _) eq_refl).
    vm_compute in Hall. discriminate Hall.
  - destruct (proj2 (FindMatchingUntoleratedTaint_first exampleTolerates
                       [taintA; taintB] [tolerationB] onlyNoExecute))
      as [(pre & t & post & Heq & _ & Hkeep & Hnot & _) | [-> _]];
      [exfalso | reflexivity].
    destruct pre as [|p1 [|p2 pre]]; simplify_eq/=;
      try (by destruct pre);
      try (vm_compute in Hkeep; discriminate Hkeep);
      try (vm_compute in Hnot; discriminate Hnot).
Defined.

(** C5.  [TolerationsTolerateTaint] is true exactly when some toleration of
    the list tolerates the taint; it is false on the empty list; and its
    result does not change when the list is permuted. *)
Theorem TolerationsTolerateTaint_any tolerates tolerations taint :
  (TolerationsTolerateTaint tolerates tolerations taint = true ↔
     ∃ t, t ∈ tolerations ∧ tolerates t taint = true)
  ∧ TolerationsTolerateTaint tolerates [] taint = false
  ∧ (∀ tolerations', tolerations ≡ₚ tolerations' →
       TolerationsTolerateTaint tolerates tolerations' taint
       = TolerationsTolerateTaint tolerates tolerations taint).
Proof.
  split; [apply tolerate_exists |]. split; [done |].
  intros tolerations' Hperm.
  destruct (TolerationsTolerateTaint tolerates tolerations taint) eqn:E.
  - apply tolerate_exists in E as (t & Hin & Ht).
    apply tolerate_exists. exists t. split; [by rewrite <- Hperm | done].
  - destruct (TolerationsTolerateTaint tolerates tolerations' taint) eqn:E';
      [| done].
    apply tolerate_exists in E' as (t & Hin & Ht).
    rewrite <- E. symmetry. apply tolerate_exists.
    exists t. split; [by rewrite Hperm | done].
Qed.

Lemma TolerationsTolerateTaint_any_witness :
  TolerationsTolerateTaint exampleTolerates [tolerationB; tolerationOther]
    taintB
  = TolerationsTolerateTaint exampleTolerates [tolerationOther; tolerationB]
      taintB
  ∧ TolerationsTolerateTaint exampleTolerates [tolerationOther; tolerationB]
      taintB = true.
Proof.
  destruct (TolerationsTolerateTaint_any exampleTolerates
              [tolerationOther; tolerationB] taintB) as (Hiff & _ & Hperm).
  split.
  - apply Hperm. apply perm_swap.
  - apply Hiff. exists tolerationB. split; [| reflexivity].
    right. left.
Defined.

(** The examples of the spec: taints [A(NoSchedule); B(NoExecute)] and
    tolerations that tolerate only B. *)
Example find_untolerated_no_filter :
  FindMatchingUntoleratedTaint exampleTolerates [taintA; taintB]
    [tolerationOther; tolerationB] None = (taintA, true).
Proof. reflexivity. Qed.

Example find_untolerated_only_NoExecute :
  FindMatchingUntoleratedTaint exampleTolerates [taintA; taintB]
    [tolerationOther; tolerationB] onlyNoExecute = (zeroTaint, false).
Proof. reflexivity. Qed.

Example tolerate_none_on_empty :
  TolerationsTolerateTaint exampleTolerates [] taintB = false
  ∧ TolerationsTolerateTaint exampleTolerates [tolerationOther; tolerationB]
      taintB = true
  ∧ TolerationsTolerateTaint exampleTolerates [tolerationB; tolerationOther]
      taintB = true.
Proof. repeat split; reflexivity. Qed.

(* ===================================================================== *)
(** * Part V: the resource aggregator, properties                         *)
(* ===================================================================== *)

(** ** Number maps *)

Lemma lookup_sumList V N k :
  sumList V N !! k =
  match V !! k, N !! k with
  | Some a, Some b => Some (a + b)
  | Some a, None => Some a
  | None, o => o
  end.
Proof.
  unfold sumList. rewrite lookup_union_with.
  by destruct (V !! k), (N !! k).
Qed.

Lemma lookup_maxList V N k :
  maxList V N !! k =
  match V !! k, N !! k with
  | Some a, Some b => Some (Z.max a b)
  | Some a, None => Some a
  | None, o => o
  end.
Proof.
  unfold maxList. rewrite lookup_union_with.
  by destruct (V !! k), (N !! k).
Qed.

Lemma lookup_growList V O k :
  growList V O !! k =
  match V !! k with
  | Some a =>
      Some (if a =? 0 then a
            else match O !! k with Some b => a + b | None => a end)
  | None => None
  end.
Proof.
  unfold growList. rewrite map_lookup_imap.
  by destruct (V !! k).
Qed.

Lemma sumList_empty_r V : sumList V ∅ = V.
Proof.
  apply map_eq. intros k. rewrite lookup_sumList, lookup_empty.
  by destruct (V !! k).
Qed.

Lemma growList_empty_r V : growList V ∅ = V.
Proof.
  apply map_eq. intros k. rewrite lookup_growList, lookup_empty.
  destruct (V !! k) as [a|]; [| done]. by destruct (a =? 0).
Qed.

(** Visiting entries with distinct names, in any order: each name is
    handled once, against the number the accumulator had at the start. *)
Lemma fold_stepG_lookup g (l : list (string * Z)) V k :
  NoDup l.*1 →
  foldl (stepG g) V l !! k =
  match (list_to_map l : gmap string Z) !! k with
  | Some z => g (V !! k) z
  | None => V !! k
  end.
Proof.
  revert V. induction l as [|[k0 z0] l IH]; intros V Hnd; simpl.
  - by rewrite lookup_empty.
  - apply NoDup_cons in Hnd as [Hk0 Hnd].
    rewrite IH by done. unfold stepG. simpl.
    rewrite lookup_partial_alter.
    destruct (decide (k0 = k)) as [-> | Hne].
    + rewrite lookup_insert_eq.
      by rewrite (not_elem_of_list_to_map_1 l k).
    + by rewrite lookup_insert_ne.
Qed.

Lemma fold_g_add l V N :
  NoDup l.*1 → list_to_map l = N → foldl (stepG g_add) V l = sumList V N.
Proof.
  intros Hnd <-. apply map_eq. intros k.
  rewrite fold_stepG_lookup, lookup_sumList by done.
  unfold g_add. by destruct (list_to_map l !! k), (V !! k).
Qed.

Lemma fold_g_max l V N :
  NoDup l.*1 → list_to_map l = N → foldl (stepG g_max) V l = maxList V N.
Proof.
  intros Hnd <-. apply map_eq. intros k.
  rewrite fold_stepG_lookup, lookup_maxList by done.
  unfold g_max. destruct (list_to_map l !! k) as [z|], (V !! k) as [a|]; try done.
  f_equal. destruct (Z.ltb_spec a z); lia.
Qed.

Lemma fold_g_grow l V N :
  NoDup l.*1 → list_to_map l = N → foldl (stepG g_grow) V l = growList V N.
Proof.
  intros Hnd <-. apply map_eq. intros k.
  rewrite fold_stepG_lookup, lookup_growList by done.
  unfold g_grow. destruct (list_to_map l !! k) as [z|], (V !! k) as [a|]; try done.
  by destruct (a =? 0).
Qed.

(** The entries a fair range yields, as numbers: distinct names, and
    together the numbers of the list. *)
Lemma numbers_range {St} (w0 : World St) (m : gmap string Quantity) entries :
  entries ≡ₚ map_to_list m →
  NoDup (numbers w0 entries).*1 ∧ list_to_map (numbers w0 entries) = qval w0 <$> m.
Proof.
  intros Hperm. unfold numbers.
  assert (Hfst : (prod_map id (qval w0) <$> entries).*1 = entries.*1).
  { rewrite <- list_fmap_compose. by apply list_fmap_ext. }
  assert (Hnd : NoDup entries.*1).
  { rewrite Hperm. apply NoDup_fst_map_to_list. }
  split; [by rewrite Hfst |].
  rewrite list_to_map_fmap. f_equal.
  rewrite (list_to_map_proper _ _ Hnd Hperm).
  apply list_to_map_to_list.
Qed.

(** ** The state monad *)

Lemma post_ret {St A} (a : A) (w : World St) Q : Q a w → post (mret a) w Q.
Proof. done. Qed.

Lemma post_bind {St A B} (c : M St A) (k : A → M St B) w Q :
  post c w (λ a w1, post (k a) w1 Q) → post (c ≫= k) w Q.
Proof.
  unfold post, mbind, M_bind. by destruct (c w).
Qed.

Lemma post_mono {St A} (c : M St A) w (Q Q' : A → World St → Prop) :
  (∀ a w', Q a w' → Q' a w') → post c w Q → post c w Q'.
Proof. unfold post. auto. Qed.

(** A loop with an invariant indexed by what has been folded so far. *)
Lemma forEach_post {St A B} (I : B → World St → Prop) (f : B → A → B)
    (body : A → M St unit) (l : list A) :
  (∀ x b w, x ∈ l → I b w → post (body x) w (λ _ w', I (f b x) w')) →
  ∀ b w, I b w → post (forEach l body) w (λ _ w', I (foldl f b l) w').
Proof.
  induction l as [|x l IH]; intros Hbody b w HI; simpl.
  - by apply post_ret.
  - apply post_bind. eapply post_mono; [| apply (Hbody x b w); [left | done]].
    intros u w' HI'. simpl in HI'. apply IH; [| done].
    intros y b' w'' Hin. apply Hbody. by right.
Qed.

(** ** The store *)

Lemma qval_agree {St} (w w' : World St) q :
  (∀ l, dec q = Some l → cells w' !! l = cells w !! l) →
  qval w' q = qval w q.
Proof.
  intros H. unfold qval. destruct (dec q) as [l|]; [| done].
  by rewrite (H l).
Qed.

Lemma Acc_dom_cells {St} (w0 w : World St) acc V l :
  Acc w0 acc V w → l ∈ dom (cells w0) → l ∈ dom (cells w).
Proof.
  intros HA Hl. apply elem_of_dom. rewrite (acc_cells _ _ _ _ HA l Hl).
  by apply elem_of_dom.
Qed.

(** A quantity that was well formed in [w0] still has its number. *)
Lemma Acc_input {St} (w0 w : World St) acc V q :
  Acc w0 acc V w → cell_ok w0 q → qval w q = qval w0 q.
Proof.
  intros HA Hq. apply qval_agree. intros l Hl.
  unfold cell_ok in Hq. rewrite Hl in Hq.
  by apply (acc_cells _ _ _ _ HA).
Qed.

(** Steps that touch neither the maps nor the cells keep the invariant. *)
Lemma Acc_ext {St} (w0 w w' : World St) acc V :
  Acc w0 acc V w →
  maps w' = maps w → cells w' = cells w → order w' = order w →
  Acc w0 acc V w'.
Proof.
  intros [H1 H2 H3 H4 H5 H6 H7] Hm Hc Ho.
  unfold contents, qval in *.
  split; unfold contents, qval; rewrite ?Hm, ?Hc, ?Ho; done.
Qed.

(** The one way the accumulator is written: the entry under [k] becomes
    [c], whose cell is of the accumulator's own, and no other cell
    changes. *)
Lemma Acc_update {St} (w0 w w' : World St) acc V k c z :
  Acc w0 acc V w →
  maps w' = <[acc := <[k := c]> (contents w acc)]> (maps w) →
  order w' = order w →
  qval w' c = z →
  (∀ l, dec c = Some l →
        l ∈ dom (cells w') ∧ (l ∉ dom (cells w0)) ∧
        ∀ k' q', k' ≠ k → contents w acc !! k' = Some q' → dec q' ≠ Some l) →
  (∀ l, l ∈ dom (cells w) → dec c ≠ Some l → cells w' !! l = cells w !! l) →
  Acc w0 acc (<[k := z]> V) w'.
Proof.
  intros HA Hm Ho Hz Hc Hothers.
  assert (Hcont : contents w' acc = <[k := c]> (contents w acc)).
  { unfold contents at 1. by rewrite Hm, lookup_insert_eq. }
  assert (Hold : ∀ k' q' l, k' ≠ k → contents w acc !! k' = Some q' →
            dec q' = Some l → cells w' !! l = cells w !! l ∧ l ∈ dom (cells w)).
  { intros k' q' l Hne Hq' Hl.
    destruct (acc_owned _ _ _ _ HA k' q' l Hq' Hl) as [_ Hin].
    split; [| done]. apply Hothers; [done |].
    intros Hcl. by destruct (Hc l Hcl) as (_ & _ & Hsep'); eapply Hsep'. }
  split.
  - intros r Hr. rewrite Hm, lookup_insert_ne by done.
    by apply (acc_maps _ _ _ _ HA).
  - rewrite Hm, lookup_insert_eq. eauto.
  - intros l Hl. rewrite <- (acc_cells _ _ _ _ HA l Hl).
    apply Hothers; [by eapply Acc_dom_cells |].
    intros Hcl. by destruct (Hc l Hcl) as (_ & Hn & _).
  - intros k' q l. rewrite Hcont.
    destruct (decide (k = k')) as [<- | Hne].
    + rewrite lookup_insert_eq. intros [= <-] Hl.
      destruct (Hc l Hl) as (? & ? & _). done.
    + rewrite lookup_insert_ne by done. intros Hq Hl.
      destruct (acc_owned _ _ _ _ HA k' q l Hq Hl) as [Hn Hin].
      split; [done |].
      destruct (Hold k' q l) as [Heq _]; try done.
      apply elem_of_dom. rewrite Heq. by apply elem_of_dom.
  - intros k1 k2 q1 q2 l. rewrite Hcont.
    destruct (decide (k = k1)) as [<- | Hne1];
      destruct (decide (k = k2)) as [<- | Hne2]; try done.
    + rewrite lookup_insert_eq, lookup_insert_ne by done.
      intros [= <-] Hq2 Hl1 Hl2.
      destruct (Hc l Hl1) as (_ & _ & Hsep'). by destruct (Hsep' k2 q2).
    + rewrite lookup_insert_eq, lookup_insert_ne by done.
      intros Hq1 [= <-] Hl1 Hl2.
      destruct (Hc l Hl2) as (_ & _ & Hsep'). by destruct (Hsep' k1 q1).
    + rewrite !lookup_insert_ne by done. apply (acc_sep _ _ _ _ HA).
  - rewrite Hcont. apply map_eq. intros k'.
    rewrite lookup_fmap.
    destruct (decide (k = k')) as [<- | Hne].
    + by rewrite !lookup_insert_eq, <- Hz.
    + rewrite !lookup_insert_ne by done.
      rewrite <- (acc_view _ _ _ _ HA), lookup_fmap.
      destruct (contents w acc !! k') as [q'|] eqn:Hq'; [| done]. simpl.
      f_equal. apply qval_agree. intros l Hl.
      by destruct (Hold k' q' l).
  - rewrite Ho. apply (acc_order _ _ _ _ HA).
Qed.

(** Running the monad on a world: binds become lets. *)
Ltac run_m := unfold mbind, M_bind, mret, M_ret; simpl.

Lemma step_frame_refl {St} (w : World St) acc k : step_frame w acc k w.
Proof. by split. Qed.

Lemma step_frame_assign {St} (w w' : World St) acc k c :
  maps w' = <[acc := <[k := c]> (contents w acc)]> (maps w) →
  (∀ l, l ∈ dom (cells w) →
        (∀ q, contents w acc !! k = Some q → dec q ≠ Some l) →
        cells w' !! l = cells w !! l) →
  step_frame w acc k w'.
Proof.
  intros Hm Hc. split; [| done].
  intros k' Hne. unfold contents at 1.
  rewrite Hm, lookup_insert_eq. simpl. by rewrite lookup_insert_ne.
Qed.

(** Storing a deep copy of a quantity under [k]. *)
Lemma copy_assign_Acc {St} (w0 w : World St) acc V k q :
  Acc w0 acc V w → cell_ok w q →
  post (c ← DeepCopy q; mapAssign acc k c) w
       (λ _ w', Acc w0 acc (<[k := qval w q]> V) w' ∧ step_frame w acc k w').
Proof.
  intros HA Hq. unfold post, DeepCopy.
  destruct (dec q) as [lq|] eqn:Hdec; run_m.
  - set (l' := fresh (dom (cells w))).
    assert (Hfresh : l' ∉ dom (cells w)) by apply is_fresh.
    split.
    + eapply (Acc_update w0 w); try done; simpl.
      * unfold qval at 1. simpl. by rewrite lookup_insert_eq.
      * intros l [= <-]. split; [| split].
        -- apply elem_of_dom. rewrite lookup_insert_eq. eauto.
        -- intros Hin. apply Hfresh. by eapply Acc_dom_cells.
        -- intros k' q' _ Hq' Hl.
           by destruct (acc_owned _ _ _ _ HA k' q' l' Hq' Hl) as [_ ?].
      * intros l Hl Hne. rewrite lookup_insert_ne; [done |]. congruence.
    + eapply step_frame_assign; [done |]. simpl.
      intros l Hl _. rewrite lookup_insert_ne; [done |]. by intros <-.
  - split.
    + eapply (Acc_update w0 w); try done; simpl.
      intros l Hl. congruence.
    + by eapply step_frame_assign.
Qed.

(** Adding a quantity to the entry under [k]. *)
Lemma add_assign_Acc {St} (w0 w : World St) acc V k value y :
  Acc w0 acc V w → contents w acc !! k = Some value → cell_ok w y →
  post (value' ← Add value y; mapAssign acc k value') w
       (λ _ w', Acc w0 acc (<[k := qval w value + qval w y]> V) w' ∧
                step_frame w acc k w').
Proof.
  intros HA Hk Hy. unfold post, Add.
  destruct (dec value) as [lv|] eqn:Hdv.
  - (* the receiver has a cell: the sum is written in place *)
    unfold ToDec. rewrite Hdv. run_m. rewrite Hdv. run_m.
    destruct (acc_owned _ _ _ _ HA k value lv Hk Hdv) as [Hn Hin].
    split.
    + eapply (Acc_update w0 w); try done; simpl.
      * unfold qval at 1. rewrite Hdv. simpl. by rewrite lookup_insert_eq.
      * intros l Hl. rewrite Hdv in Hl. injection Hl as <-.
        split; [| split; [done |]].
        -- apply elem_of_dom. rewrite lookup_insert_eq. eauto.
        -- intros k' q' Hne Hq' Hl'. apply Hne.
           by apply (acc_sep _ _ _ _ HA k' k q' value lv).
      * intros l Hl Hne. rewrite lookup_insert_ne; [done |]. congruence.
    + eapply step_frame_assign; [done |]. simpl.
      intros l Hl Hnot. rewrite lookup_insert_ne; [done |].
      intros <-. by apply (Hnot value).
  - destruct (dec y) as [ly|] eqn:Hdy.
    + (* the receiver is inline, the argument is not: a cell is made *)
      unfold ToDec. rewrite Hdv. run_m.
      set (l' := fresh (dom (cells w))).
      assert (Hfresh : l' ∉ dom (cells w)) by apply is_fresh.
      assert (Hly : ly ∈ dom (cells w)).
      { unfold cell_ok in Hy. by rewrite Hdy in Hy. }
      assert (Hne : l' ≠ ly) by (by intros ->).
      split.
      * eapply (Acc_update w0 w); try done; simpl.
        -- unfold qval. simpl. rewrite Hdv, Hdy. simpl.
           rewrite !lookup_insert_eq. simpl.
           by rewrite lookup_insert_ne.
        -- intros l [= <-]. split; [| split].
           ++ apply elem_of_dom. rewrite lookup_insert_eq. eauto.
           ++ intros Hin. apply Hfresh. by eapply Acc_dom_cells.
           ++ intros k' q' _ Hq' Hl.
              by destruct (acc_owned _ _ _ _ HA k' q' l' Hq' Hl) as [_ ?].
        -- intros l Hl Hne'. rewrite !lookup_insert_ne; [done | congruence ..].
      * eapply step_frame_assign; [done |]. simpl.
        intros l Hl _. rewrite !lookup_insert_ne; [done | by intros <- ..].
    + (* both inline *)
      run_m. split.
      * eapply (Acc_update w0 w); try done; simpl.
        unfold qval. simpl. by rewrite Hdv, Hdy.
      * by eapply step_frame_assign.
Qed.

Lemma stepG_insert g (V : gmap string Z) k z x :
  g (V !! k) z = Some x → stepG g V (k, z) = <[k := x]> V.
Proof.
  intros Hg. apply map_eq. intros k'. unfold stepG. simpl.
  rewrite lookup_partial_alter, lookup_insert.
  by destruct (decide (k = k')).
Qed.

Lemma stepG_same g (V : gmap string Z) k z :
  g (V !! k) z = V !! k → stepG g V (k, z) = V.
Proof.
  intros Hg. apply map_eq. intros k'. unfold stepG. simpl.
  rewrite lookup_partial_alter.
  destruct (decide (k = k')) as [<- |]; done.
Qed.

Lemma Acc_lookup {St} (w0 w : World St) acc V k :
  Acc w0 acc V w → V !! k = qval w <$> contents w acc !! k.
Proof.
  intros HA. by rewrite <- (acc_view _ _ _ _ HA), lookup_fmap.
Qed.

(** ** The loop bodies *)

(** The three bodies, on an entry [k, q] whose cell, if any, is allocated:
    the numbers of the accumulator change at [k] as [g_add], [g_max] and
    [g_grow] say, by the number [q] has when the body runs. *)
Lemma addEntry_Acc {St} (w0 w : World St) acc V k q :
  Acc w0 acc V w → cell_ok w q →
  post (addEntry acc k q) w
       (λ _ w', Acc w0 acc (stepG g_add V (k, qval w q)) w' ∧
                step_frame w acc k w').
Proof.
  intros HA Hq. unfold addEntry. apply post_bind.
  unfold post at 1, mapIndex. simpl.
  pose proof (Acc_lookup _ _ _ _ k HA) as HV.
  destruct (contents w acc !! k) as [value|] eqn:Hk; simpl in HV.
  - rewrite (stepG_insert _ _ _ _ (qval w value + qval w q))
      by by rewrite HV.
    by apply add_assign_Acc.
  - rewrite (stepG_insert _ _ _ _ (qval w q)) by by rewrite HV.
    by apply copy_assign_Acc.
Qed.

Lemma maxEntry_Acc {St} (w0 w : World St) acc V k q :
  Acc w0 acc V w → cell_ok w q →
  post (maxEntry acc k q) w
       (λ _ w', Acc w0 acc (stepG g_max V (k, qval w q)) w' ∧
                step_frame w acc k w').
Proof.
  intros HA Hq. unfold maxEntry. apply post_bind.
  unfold post at 1, mapIndex. simpl.
  pose proof (Acc_lookup _ _ _ _ k HA) as HV.
  destruct (contents w acc !! k) as [value|] eqn:Hk; simpl in HV.
  - apply post_bind. unfold post at 1, Cmp, Value. run_m.
    destruct (Z.compare_spec (qval w q) (qval w value)) as [Heq | Hlt | Hgt];
      simpl.
    + rewrite stepG_same;
        [apply post_ret; split; [done | apply step_frame_refl] |].
      rewrite HV. unfold g_max. rewrite Heq, Z.ltb_irrefl. done.
    + rewrite stepG_same;
        [apply post_ret; split; [done | apply step_frame_refl] |].
      rewrite HV. unfold g_max.
      destruct (Z.ltb_spec (qval w value) (qval w q)); [lia | done].
    + rewrite (stepG_insert _ _ _ _ (qval w q)).
      * by apply copy_assign_Acc.
      * rewrite HV. unfold g_max.
        destruct (Z.ltb_spec (qval w value) (qval w q)); [done | lia].
  - rewrite (stepG_insert _ _ _ _ (qval w q)) by by rewrite HV.
    by apply copy_assign_Acc.
Qed.

Lemma overheadEntry_Acc {St} (w0 w : World St) acc V k q :
  Acc w0 acc V w → cell_ok w q →
  post (overheadEntry acc k q) w
       (λ _ w', Acc w0 acc (stepG g_grow V (k, qval w q)) w' ∧
                step_frame w acc k w').
Proof.
  intros HA Hq. unfold overheadEntry. apply post_bind.
  unfold post at 1, mapIndex. simpl.
  pose proof (Acc_lookup _ _ _ _ k HA) as HV.
  destruct (contents w acc !! k) as [value|] eqn:Hk; simpl in HV.
  - apply post_bind. unfold post at 1, IsZero, Value. run_m.
    destruct (qval w value =? 0) eqn:Hz; simpl.
    + rewrite stepG_same;
        [apply post_ret; split; [done | apply step_frame_refl] |].
      rewrite HV. unfold g_grow. by rewrite Hz.
    + rewrite (stepG_insert _ _ _ _ (qval w value + qval w q)).
      * by apply add_assign_Acc.
      * rewrite HV. unfold g_grow. by rewrite Hz.
  - rewrite stepG_same;
      [apply post_ret; split; [done | apply step_frame_refl] |].
    by rewrite HV.
Qed.

(** ** The loops over a resource list *)

(** A loop with an invariant that also speaks of what is left to visit. *)
Lemma forEach_post_rem {St A B} (I : list A → B → World St → Prop)
    (f : B → A → B) (body : A → M St unit) (l : list A) :
  (∀ x rest b w, I (x :: rest) b w →
     post (body x) w (λ _ w', I rest (f b x) w')) →
  ∀ b w, I l b w → post (forEach l body) w (λ _ w', I [] (foldl f b l) w').
Proof.
  intros Hbody. induction l as [|x l IH]; intros b w HI; simpl.
  - by apply post_ret.
  - apply post_bind. eapply post_mono; [| by apply Hbody].
    intros u w' HI'. simpl in HI'. by apply IH.
Qed.

(** While the accumulator is being filled, every other list reads as it
    did at the start. *)
Lemma Acc_listOf {St} (w0 w : World St) acc V rl :
  Acc w0 acc V w → rl ≠ Some acc → listOf w rl = listOf w0 rl.
Proof.
  intros HA Hne. destruct rl as [r|]; [| done]. simpl. unfold contents.
  rewrite (acc_maps _ _ _ _ HA r); [done | congruence].
Qed.

Lemma closed_entry {St} (w0 : World St) rl k q :
  heap_closed w0 → listOf w0 rl !! k = Some q → cell_ok w0 q.
Proof.
  intros Hcl. destruct rl as [r|]; simpl; [| by rewrite lookup_empty].
  unfold contents. destruct (maps w0 !! r) as [m|] eqn:Hm; simpl.
  - intros Hq. by apply (Hcl r m Hm k q).
  - by rewrite lookup_empty.
Qed.

Lemma Acc_view_input {St} (w0 w : World St) acc V rl :
  heap_closed w0 → Acc w0 acc V w → rl ≠ Some acc → view w rl = view w0 rl.
Proof.
  intros Hcl HA Hne. unfold view. rewrite (Acc_listOf _ _ _ _ _ HA Hne).
  apply map_eq. intros k. rewrite !lookup_fmap.
  destruct (listOf w0 rl !! k) as [q|] eqn:Hq; [| done]. simpl. f_equal.
  eapply Acc_input; [done |]. by eapply closed_entry.
Qed.

Lemma Acc_view_acc {St} (w0 w : World St) acc V :
  Acc w0 acc V w → view w (Some acc) = V.
Proof. intros HA. unfold view. simpl. apply (acc_view _ _ _ _ HA). Qed.

(** What a list reads as in the middle of a call. *)
Lemma Acc_cur {St} (w0 w : World St) acc V rl :
  heap_closed w0 → Acc w0 acc V w → view w rl = cur w0 acc V rl.
Proof.
  intros Hcl HA. unfold cur. destruct (decide (rl = Some acc)) as [-> | Hne].
  - by eapply Acc_view_acc.
  - by eapply Acc_view_input.
Qed.

Lemma cell_ok_later {St} (w0 w : World St) acc V q :
  Acc w0 acc V w → cell_ok w0 q → cell_ok w q.
Proof.
  intros HA. unfold cell_ok. destruct (dec q); [| done].
  by eapply Acc_dom_cells.
Qed.

(** A loop over [newList], which may be the accumulator itself, whose body
    handles each entry as [g] says leaves in the accumulator what [F] says
    of its numbers and those of [newList] at the start of the loop,
    whatever the order of the range. *)
Lemma range_loop_Acc {St} g (F : gmap string Z → gmap string Z → gmap string Z)
    (body : string → Quantity → M St unit) (w0 w : World St) acc V newList :
  (∀ l V N, NoDup l.*1 → list_to_map l = N → foldl (stepG g) V l = F V N) →
  (∀ k q V w, Acc w0 acc V w → cell_ok w q →
     post (body k q) w
       (λ _ w', Acc w0 acc (stepG g V (k, qval w q)) w' ∧
                step_frame w acc k w')) →
  heap_closed w0 → fair_order w0 → Acc w0 acc V w →
  post (entries ← mapRange newList;
        forEach entries (λ '(name, quantity), body name quantity)) w
       (λ _ w', Acc w0 acc (F V (view w newList)) w').
Proof.
  intros HF Hbody Hcl Hfair HA.
  apply post_bind. unfold post at 1, mapRange. simpl.
  set (entries := order w (tick w) (map_to_list (listOf w newList))).
  set (ws := set_tick (S (tick w)) w).
  assert (Hperm : entries ≡ₚ map_to_list (listOf w newList)).
  { unfold entries. rewrite (acc_order _ _ _ _ HA). apply Hfair. }
  destruct (numbers_range w _ _ Hperm) as [Hnd Hmap].
  unfold view. rewrite <- (HF (numbers w entries) V _ Hnd Hmap).
  unfold numbers. rewrite foldl_fmap.
  set (I := λ (rest : list (string * Quantity)) (V' : gmap string Z)
              (w' : World St),
         Acc w0 acc V' w' ∧ NoDup rest.*1 ∧
         ∀ k q, (k, q) ∈ rest →
           qval w' q = qval w q ∧
           (cell_ok w0 q ∨ contents w' acc !! k = Some q)).
  eapply post_mono;
    [| apply (forEach_post_rem I
                (λ V e, stepG g V (prod_map id (qval w) e)))].
  - intros u w' (HA' & _). exact HA'.
  - (* one step *)
    intros [k0 q0] rest V' w' (HA' & Hnd' & Hrest). simpl.
    apply NoDup_cons in Hnd' as [Hk0 Hnd'].
    destruct (Hrest k0 q0) as [Hv0 Ho0]; [left |].
    assert (Hok0 : cell_ok w' q0).
    { destruct Ho0 as [Hin | Hself]; [by eapply cell_ok_later |].
      unfold cell_ok. destruct (dec q0) as [l|] eqn:Hl; [| done].
      by destruct (acc_owned _ _ _ _ HA' k0 q0 l Hself Hl). }
    eapply post_mono; [| by apply (Hbody k0 q0 V' w')].
    intros u w'' [HA'' [Hents Hcells]]. simpl.
    rewrite Hv0 in HA''. split; [done |]. split; [done |].
    intros k q Hin.
    assert (Hne : k ≠ k0).
    { intros ->. apply Hk0. apply list_elem_of_fmap. by exists (k0, q). }
    destruct (Hrest k q) as [Hv Ho]; [by right |].
    split.
    + rewrite <- Hv. apply qval_agree. intros l Hl.
      destruct Ho as [Hin0 | Hself].
      * unfold cell_ok in Hin0. rewrite Hl in Hin0.
        by rewrite (acc_cells _ _ _ _ HA'' l), (acc_cells _ _ _ _ HA' l).
      * destruct (acc_owned _ _ _ _ HA' k q l Hself Hl) as [_ Hdom].
        apply Hcells; [done |]. intros q' Hq' Hl'. apply Hne.
        by apply (acc_sep _ _ _ _ HA' k k0 q q' l).
    + destruct Ho as [Hin0 | Hself]; [by left | right].
      by rewrite Hents.
  - (* at the start *)
    split; [by eapply (Acc_ext w0 w ws) |]. split.
    { rewrite Hperm. apply NoDup_fst_map_to_list. }
    intros k q Hin. split; [done |].
    assert (Hq : listOf w newList !! k = Some q).
    { apply elem_of_map_to_list. by rewrite <- Hperm. }
    destruct (decide (newList = Some acc)) as [-> | Hne].
    + by right.
    + left. rewrite (Acc_listOf _ _ _ _ _ HA Hne) in Hq.
      by eapply closed_entry.
Qed.

Lemma addResourceList_Acc {St} (w0 w : World St) acc V newList :
  heap_closed w0 → fair_order w0 → Acc w0 acc V w →
  post (addResourceList acc newList) w
       (λ _ w', Acc w0 acc (sumList V (view w newList)) w').
Proof.
  intros. unfold addResourceList.
  eapply (range_loop_Acc g_add sumList); eauto using fold_g_add.
  intros. by apply addEntry_Acc.
Qed.

Lemma maxResourceList_Acc {St} (w0 w : World St) acc V newList :
  heap_closed w0 → fair_order w0 → Acc w0 acc V w →
  post (maxResourceList acc newList) w
       (λ _ w', Acc w0 acc (maxList V (view w newList)) w').
Proof.
  intros. unfold maxResourceList.
  eapply (range_loop_Acc g_max maxList); eauto using fold_g_max.
  intros. by apply maxEntry_Acc.
Qed.

Lemma addOverheadToLimits_Acc {St} (w0 w : World St) acc V overhead :
  heap_closed w0 → fair_order w0 → Acc w0 acc V w →
  post (addOverheadToLimits acc overhead) w
       (λ _ w', Acc w0 acc (growList V (view w overhead)) w').
Proof.
  intros. unfold addOverheadToLimits.
  eapply (range_loop_Acc g_grow growList); eauto using fold_g_grow.
  intros. by apply overheadEntry_Acc.
Qed.
(** ** Obtaining the accumulator *)

Lemma Acc_init {St} (w0 w : World St) acc :
  maps w = <[acc := ∅]> (maps w0) → cells w = cells w0 → order w = order w0 →
  Acc w0 acc ∅ w.
Proof.
  intros Hm Hc Ho.
  assert (Hcont : contents w acc = ∅).
  { unfold contents. by rewrite Hm, lookup_insert_eq. }
  split; rewrite ?Hcont, ?Hc, ?Ho; try done.
  - intros r Hr. by rewrite Hm, lookup_insert_ne.
  - rewrite Hm, lookup_insert_eq. eauto.
Qed.

Lemma fold_delete_None {A} (l : list (string * A)) (m : gmap string A) k :
  m !! k = None ∨ k ∈ l.*1 →
  foldl (λ b e, delete e.1 b) m l !! k = None.
Proof.
  revert m. induction l as [|[k0 x] l IH]; intros m H; simpl.
  - destruct H as [H | H]; [done | by apply elem_of_nil in H].
  - apply IH. destruct (decide (k0 = k)) as [-> | Hne].
    + left. apply lookup_delete_eq.
    + rewrite lookup_delete_ne by done.
      destruct H as [H | H]; [by left | right].
      simpl in H. apply elem_of_cons in H as [-> | H]; done.
Qed.

Lemma reuseOrClearResourceList_Acc {St} (w0 : World St) reuse :
  fair_order w0 → allocated w0 reuse →
  post (reuseOrClearResourceList reuse) w0
       (λ acc w, Acc w0 acc ∅ w ∧
                 match reuse with
                 | Some r => acc = r
                 | None => acc ∉ dom (maps w0)
                 end).
Proof.
  intros Hfair Halloc. destruct reuse as [r|]; simpl.
  - apply post_bind. unfold post at 1, mapRange. simpl.
    set (entries := order w0 (tick w0) (map_to_list (contents w0 r))).
    assert (Hperm : entries ≡ₚ map_to_list (contents w0 r)) by apply Hfair.
    apply post_bind.
    set (J := λ (b : gmap string Quantity) (w : World St),
                maps w = <[r := b]> (maps w0) ∧
                cells w = cells w0 ∧ order w = order w0).
    eapply post_mono;
      [| apply (forEach_post J (λ b e, delete e.1 b)) with (b := contents w0 r)].
    + intros u w (Hm & Hc & Ho). apply post_ret. split; [| done].
      apply Acc_init; try done. rewrite Hm. f_equal.
      apply map_eq. intros k. rewrite lookup_empty.
      apply fold_delete_None.
      destruct (contents w0 r !! k) as [q|] eqn:Hq; [right | by left].
      rewrite Hperm. apply list_elem_of_fmap. exists (k, q).
      split; [done |]. by apply elem_of_map_to_list.
    + intros [k q] b w _ (Hm & Hc & Ho). unfold post, mapDelete. simpl.
      repeat split; try done.
      unfold contents. by rewrite Hm, lookup_insert_eq, insert_insert_eq.
    + simpl. repeat split; try done.
      simpl in Halloc. apply elem_of_dom in Halloc as [m Hm].
      unfold contents. rewrite Hm. simpl. by rewrite insert_id.
  - unfold post, make. simpl. split; [by apply Acc_init | apply is_fresh].
Qed.

(** ** The loops over the containers *)

Lemma callContainerFn_Acc {St} (w0 w : World St) acc V opts rl ty :
  Acc w0 acc V w →
  post (callContainerFn opts rl ty) w (λ _ w', Acc w0 acc V w').
Proof.
  intros HA. unfold callContainerFn, post.
  destruct (ContainerFn opts); simpl; [by eapply Acc_ext | done].
Qed.

Lemma container_loop_Acc {St} (F : gmap string Z → gmap string Z → gmap string Z)
    (op : loc → ResourceList → M St unit) opts ty (get : Container → ResourceList)
    (cs : list Container) (w0 w : World St) acc V :
  heap_closed w0 →
  (∀ V w rl, Acc w0 acc V w →
     post (op acc rl) w (λ _ w', Acc w0 acc (F V (view w rl)) w')) →
  Acc w0 acc V w →
  post (forEach cs (λ container,
          callContainerFn opts (get container) ty;; op acc (get container))) w
       (λ _ w', Acc w0 acc
                  (foldl (λ V rl, F V (cur w0 acc V rl)) V (get <$> cs)) w').
Proof.
  intros Hcl Hop HA. rewrite foldl_fmap.
  apply (forEach_post (λ V w, Acc w0 acc V w)
           (λ V c, F V (cur w0 acc V (get c)))); [| done].
  intros c b w' Hin Hb. apply post_bind.
  eapply post_mono; [| by apply callContainerFn_Acc].
  intros u w'' HA''. simpl.
  rewrite <- (Acc_cur w0 w'' acc b (get c) Hcl HA''). by apply Hop.
Qed.

(** ** The two entry points *)

Lemma view_nil {St} (w : World St) : view w None = ∅.
Proof. unfold view. simpl. apply fmap_empty. Qed.

Lemma cur_nil {St} (w : World St) acc V : cur w acc V None = ∅.
Proof. unfold cur. rewrite decide_False by done. apply view_nil. Qed.

(** [PodRequests] returns the accumulator with the sum over the regular
    containers, the maximum with each init container and the overhead,
    each list being read when its turn comes. *)
Lemma PodRequests_Acc {St} (w : World St) pod opts :
  call_ok w pod opts →
  post (PodRequests pod opts) w
       (λ acc w', Acc w acc (requestsOfA w acc pod opts) w' ∧
                  match Reuse (orDefault opts) with
                  | Some r => acc = r
                  | None => acc ∉ dom (maps w)
                  end).
Proof.
  intros (Hcl & Hfair & Halloc & Hreuse).
  unfold PodRequests. apply post_bind.
  eapply post_mono; [| by apply reuseOrClearResourceList_Acc].
  intros acc w1 [HA Hacc]. simpl.
  apply post_bind.
  eapply post_mono;
    [| apply (container_loop_Acc sumList addResourceList _ _
                (λ c, Requests (Resources c))); [done | | exact HA]].
  2: { intros. by apply addResourceList_Acc. }
  intros u1 w2 HA2. simpl. apply post_bind.
  eapply post_mono;
    [| apply (container_loop_Acc maxList maxResourceList _ _
                (λ c, Requests (Resources c))); [done | | exact HA2]].
  2: { intros. by apply maxResourceList_Acc. }
  intros u2 w3 HA3. simpl. apply post_bind.
  unfold requestsOfA, overheadOf, mergedA, requestLists.
  destruct (ExcludeOverhead (orDefault opts)); simpl.
  - apply post_ret, post_ret. split; [| done].
    by rewrite cur_nil, sumList_empty_r.
  - destruct (Overhead (Spec pod)) as [r|] eqn:Hov.
    + rewrite bool_decide_eq_true_2 by done.
      eapply post_mono;
        [| apply (addResourceList_Acc w w3 acc _ (Some r) Hcl Hfair HA3)].
      intros u3 w4 HA4. simpl. apply post_ret. split; [| done].
      by rewrite <- (Acc_cur w w3 acc _ (Some r) Hcl HA3).
    + rewrite bool_decide_eq_false_2 by (intros H; by apply H).
      apply post_ret, post_ret. split; [| done].
      by rewrite cur_nil, sumList_empty_r.
Qed.

Lemma PodLimits_Acc {St} (w : World St) pod opts :
  call_ok w pod opts →
  post (PodLimits pod opts) w
       (λ acc w', Acc w acc (limitsOfA w acc pod opts) w' ∧
                  match Reuse (orDefault opts) with
                  | Some r => acc = r
                  | None => acc ∉ dom (maps w)
                  end).
Proof.
  intros (Hcl & Hfair & Halloc & Hreuse).
  unfold PodLimits. apply post_bind.
  eapply post_mono; [| by apply reuseOrClearResourceList_Acc].
  intros acc w1 [HA Hacc]. simpl.
  apply post_bind.
  eapply post_mono;
    [| apply (container_loop_Acc sumList addResourceList _ _
                (λ c, Limits (Resources c))); [done | | exact HA]].
  2: { intros. by apply addResourceList_Acc. }
  intros u1 w2 HA2. simpl. apply post_bind.
  eapply post_mono;
    [| apply (container_loop_Acc maxList maxResourceList _ _
                (λ c, Limits (Resources c))); [done | | exact HA2]].
  2: { intros. by apply maxResourceList_Acc. }
  intros u2 w3 HA3. simpl. apply post_bind.
  unfold limitsOfA, overheadOf, mergedA, limitLists.
  destruct (ExcludeOverhead (orDefault opts)); simpl.
  - apply post_ret, post_ret. split; [| done].
    by rewrite cur_nil, growList_empty_r.
  - destruct (Overhead (Spec pod)) as [r|] eqn:Hov.
    + rewrite bool_decide_eq_true_2 by done.
      eapply post_mono;
        [| apply (addOverheadToLimits_Acc w w3 acc _ (Some r) Hcl Hfair HA3)].
      intros u3 w4 HA4. simpl. apply post_ret. split; [| done].
      by rewrite <- (Acc_cur w w3 acc _ (Some r) Hcl HA3).
    + rewrite bool_decide_eq_false_2 by (intros H; by apply H).
      apply post_ret, post_ret. split; [| done].
      by rewrite cur_nil, growList_empty_r.
Qed.

(** ** When the map to reuse is apart from the pod's lists *)

Lemma requests_in_podLists pod c :
  c ∈ Containers (Spec pod) ++ InitContainers (Spec pod) →
  Requests (Resources c) ∈ podLists pod.
Proof.
  unfold podLists, requestLists, limitLists. rewrite !elem_of_app.
  intros [H | H].
  - left. apply list_elem_of_fmap. by exists c.
  - right; right; left. apply list_elem_of_fmap. by exists c.
Qed.

Lemma limits_in_podLists pod c :
  c ∈ Containers (Spec pod) ++ InitContainers (Spec pod) →
  Limits (Resources c) ∈ podLists pod.
Proof.
  unfold podLists, requestLists, limitLists. rewrite !elem_of_app.
  intros [H | H].
  - right; left. apply list_elem_of_fmap. by exists c.
  - right; right; right; left. apply list_elem_of_fmap. by exists c.
Qed.

Lemma overhead_in_podLists pod : Overhead (Spec pod) ∈ podLists pod.
Proof.
  unfold podLists. rewrite !elem_of_app. do 4 right. apply list_elem_of_singleton.
  done.
Qed.

Lemma overheadOf_in_podLists {St} pod (opts : option (PodResourcesOptions St)) :
  overheadOf pod opts = None ∨ overheadOf pod opts ∈ podLists pod.
Proof.
  unfold overheadOf. destruct (ExcludeOverhead (orDefault opts)); [by left |].
  right. apply overhead_in_podLists.
Qed.

Lemma requestLists_in_podLists pod rl :
  rl ∈ requestLists (Containers (Spec pod))
       ++ requestLists (InitContainers (Spec pod)) →
  rl ∈ podLists pod.
Proof. unfold podLists. rewrite !elem_of_app. tauto. Qed.

Lemma limitLists_in_podLists pod rl :
  rl ∈ limitLists (Containers (Spec pod))
       ++ limitLists (InitContainers (Spec pod)) →
  rl ∈ podLists pod.
Proof. unfold podLists. rewrite !elem_of_app. tauto. Qed.

(** The accumulator of a well-formed call whose map to reuse is apart is
    none of the pod's lists. *)
Lemma acc_not_in_pod {St} (w : World St) pod opts acc :
  call_ok w pod opts → reuse_apart pod opts →
  match Reuse (orDefault opts) with
  | Some r => acc = r
  | None => acc ∉ dom (maps w)
  end →
  ∀ rl, rl ∈ podLists pod → rl ≠ Some acc.
Proof.
  intros (_ & _ & Halloc & _) Hsep Hacc rl Hin ->.
  destruct (Reuse (orDefault opts)) as [r|] eqn:Hr.
  - subst. by apply (Hsep r).
  - apply Hacc. rewrite Forall_forall in Halloc. by apply (Halloc (Some acc)).
Qed.

Lemma fold_cur_apart {St} (F : gmap string Z → gmap string Z → gmap string Z)
    (w : World St) acc V (l : list ResourceList) :
  (∀ rl, rl ∈ l → rl ≠ Some acc) →
  foldl (λ V rl, F V (cur w acc V rl)) V l = foldl F V (view w <$> l).
Proof.
  revert V. induction l as [|rl l IH]; intros V Hne; simpl; [done |].
  unfold cur at 2. rewrite decide_False by (apply Hne; left).
  apply IH. intros rl' Hin. apply Hne. by right.
Qed.

Lemma mergedA_apart {St} (w : World St) acc regular init :
  (∀ rl, rl ∈ regular ++ init → rl ≠ Some acc) →
  mergedA w acc regular init = merged w regular init.
Proof.
  intros Hne. unfold mergedA, merged.
  rewrite !fold_cur_apart; [done | |].
  - intros rl Hin. apply Hne, elem_of_app. by left.
  - intros rl Hin. apply Hne, elem_of_app. by right.
Qed.

Lemma cur_apart {St} (w : World St) acc V rl :
  rl ≠ Some acc → cur w acc V rl = view w rl.
Proof. intros Hne. unfold cur. by rewrite decide_False. Qed.

Lemma requestsOfA_apart {St} (w : World St) acc pod opts :
  (∀ rl, rl ∈ podLists pod → rl ≠ Some acc) →
  requestsOfA w acc pod opts = requestsOf w pod opts.
Proof.
  intros Hne. unfold requestsOfA, requestsOf. simpl.
  rewrite mergedA_apart.
  - f_equal. apply cur_apart.
    destruct (overheadOf_in_podLists pod opts) as [-> | Hin]; [done | by apply Hne].
  - intros rl Hin. by apply Hne, requestLists_in_podLists.
Qed.

Lemma limitsOfA_apart {St} (w : World St) acc pod opts :
  (∀ rl, rl ∈ podLists pod → rl ≠ Some acc) →
  limitsOfA w acc pod opts = limitsOf w pod opts.
Proof.
  intros Hne. unfold limitsOfA, limitsOf. simpl.
  rewrite mergedA_apart.
  - f_equal. apply cur_apart.
    destruct (overheadOf_in_podLists pod opts) as [-> | Hin]; [done | by apply Hne].
  - intros rl Hin. by apply Hne, limitLists_in_podLists.
Qed.

Lemma PodRequests_apart {St} (w : World St) pod opts :
  call_ok w pod opts → reuse_apart pod opts →
  post (PodRequests pod opts) w
       (λ acc w', Acc w acc (requestsOf w pod opts) w' ∧
                  ∀ rl, rl ∈ podLists pod → rl ≠ Some acc).
Proof.
  intros Hok Hsep. eapply post_mono; [| by apply PodRequests_Acc].
  intros acc w' [HA Hacc]. simpl.
  pose proof (acc_not_in_pod _ _ _ _ Hok Hsep Hacc) as Hne.
  split; [| done]. by rewrite <- (requestsOfA_apart w acc).
Qed.

Lemma PodLimits_apart {St} (w : World St) pod opts :
  call_ok w pod opts → reuse_apart pod opts →
  post (PodLimits pod opts) w
       (λ acc w', Acc w acc (limitsOf w pod opts) w' ∧
                  ∀ rl, rl ∈ podLists pod → rl ≠ Some acc).
Proof.
  intros Hok Hsep. eapply post_mono; [| by apply PodLimits_Acc].
  intros acc w' [HA Hacc]. simpl.
  pose proof (acc_not_in_pod _ _ _ _ Hok Hsep Hacc) as Hne.
  split; [| done]. by rewrite <- (limitsOfA_apart w acc).
Qed.

(** The accumulator that [PodRequests] and [PodLimits] return is the one
    [reuseOrClearResourceList] gave them. *)
Lemma PodRequests_fst {St} (w : World St) pod opts :
  fst (PodRequests pod opts w)
  = fst (reuseOrClearResourceList (Reuse (orDefault opts)) w).
Proof.
  unfold PodRequests. run_m.
  destruct (reuseOrClearResourceList (Reuse (orDefault opts)) w) as [acc w1].
  destruct (forEach (Containers (Spec pod)) _ w1) as [u1 w2].
  destruct (forEach (InitContainers (Spec pod)) _ w2) as [u2 w3].
  simpl. by destruct (_ w3).
Qed.

Lemma PodLimits_fst {St} (w : World St) pod opts :
  fst (PodLimits pod opts w)
  = fst (reuseOrClearResourceList (Reuse (orDefault opts)) w).
Proof.
  unfold PodLimits. run_m.
  destruct (reuseOrClearResourceList (Reuse (orDefault opts)) w) as [acc w1].
  destruct (forEach (Containers (Spec pod)) _ w1) as [u1 w2].
  destruct (forEach (InitContainers (Spec pod)) _ w2) as [u2 w3].
  simpl. by destruct (_ w3).
Qed.

(** What a list reads as once the accumulator has been obtained: the
    accumulator itself is empty, any other list is as it was. *)
Lemma view_after_clear {St} (w : World St) pod opts rl :
  call_ok w pod opts →
  view (snd (reuseOrClearResourceList (Reuse (orDefault opts)) w)) rl
  = cur w (fst (reuseOrClearResourceList (Reuse (orDefault opts)) w)) ∅ rl.
Proof.
  intros (Hcl & Hfair & Halloc & Hreuse).
  pose proof (reuseOrClearResourceList_Acc w _ Hfair Hreuse) as H.
  unfold post in H. destruct H as [HA _].
  by eapply Acc_cur.
Qed.

(** ** What a finished call leaves behind *)

Lemma Acc_closed {St} (w0 w : World St) acc V :
  heap_closed w0 → Acc w0 acc V w → heap_closed w.
Proof.
  intros Hcl HA r m Hm k q Hq. unfold cell_ok.
  destruct (dec q) as [l|] eqn:Hl; [| done].
  destruct (decide (r = acc)) as [-> | Hne].
  - assert (Hc : contents w acc !! k = Some q).
    { unfold contents. by rewrite Hm. }
    by destruct (acc_owned _ _ _ _ HA k q l Hc Hl).
  - rewrite (acc_maps _ _ _ _ HA r Hne) in Hm.
    pose proof (Hcl r m Hm k q Hq) as Hok. unfold cell_ok in Hok.
    rewrite Hl in Hok. by eapply Acc_dom_cells.
Qed.

Lemma Acc_allocated {St} (w0 w : World St) acc V rl :
  Acc w0 acc V w → allocated w0 rl → allocated w rl.
Proof.
  intros HA. destruct rl as [r|]; [| done]. simpl. intros Hr.
  apply elem_of_dom. destruct (decide (r = acc)) as [-> | Hne].
  - apply (acc_here _ _ _ _ HA).
  - rewrite (acc_maps _ _ _ _ HA r Hne). by apply elem_of_dom.
Qed.

(** A finished call leaves a store in which the same call is well formed
    again. *)
Lemma call_ok_again {St} (w w' : World St) pod opts acc V :
  call_ok w pod opts → Acc w acc V w' → call_ok w' pod opts.
Proof.
  intros (Hcl & Hfair & Halloc & Hreuse) HA.
  split; [by eapply Acc_closed |]. split.
  { intros n l. rewrite (acc_order _ _ _ _ HA). apply Hfair. }
  split; [| by eapply Acc_allocated].
  eapply Forall_impl; [exact Halloc |]. intros rl. by eapply Acc_allocated.
Qed.

(** The results depend on the store only through the numbers of the lists
    other than the accumulator. *)
Lemma fold_cur_ext {St} (F : gmap string Z → gmap string Z → gmap string Z)
    (w w' : World St) acc V (l : list ResourceList) :
  (∀ rl, rl ≠ Some acc → view w' rl = view w rl) →
  foldl (λ V rl, F V (cur w' acc V rl)) V l
  = foldl (λ V rl, F V (cur w acc V rl)) V l.
Proof.
  intros H. revert V. induction l as [|rl l IH]; intros V; simpl; [done |].
  rewrite IH. do 2 f_equal. unfold cur. case_decide; [done | by apply H].
Qed.

Lemma requestsOfA_ext {St} (w w' : World St) acc pod opts :
  (∀ rl, rl ≠ Some acc → view w' rl = view w rl) →
  requestsOfA w' acc pod opts = requestsOfA w acc pod opts.
Proof.
  intros H. unfold requestsOfA, mergedA. simpl.
  rewrite !(fold_cur_ext _ w w') by done. f_equal.
  unfold cur. case_decide; [done | by apply H].
Qed.

Lemma limitsOfA_ext {St} (w w' : World St) acc pod opts :
  (∀ rl, rl ≠ Some acc → view w' rl = view w rl) →
  limitsOfA w' acc pod opts = limitsOfA w acc pod opts.
Proof.
  intros H. unfold limitsOfA, mergedA. simpl.
  rewrite !(fold_cur_ext _ w w') by done. f_equal.
  unfold cur. case_decide; [done | by apply H].
Qed.

(** ** Sums, maxima and names, name by name *)

Lemma fold_sumList_lookup V ls k :
  foldl sumList V ls !! k =
  match V !! k, present k ls with
  | Some a, zs => Some (a + foldr Z.add 0 zs)
  | None, [] => None
  | None, zs => Some (foldr Z.add 0 zs)
  end.
Proof.
  revert V. induction ls as [|m ls IH]; intros V; simpl.
  - destruct (V !! k); [f_equal; lia | done].
  - rewrite IH, lookup_sumList. unfold present. simpl.
    destruct (V !! k) as [a|], (m !! k) as [b|]; simpl;
      try destruct (omap _ ls); simpl; f_equal; lia.
Qed.

Lemma is_Some_sumList V N k :
  is_Some (V !! k) ∨ is_Some (N !! k) → is_Some (sumList V N !! k).
Proof.
  rewrite lookup_sumList.
  destruct (V !! k), (N !! k); intros [[? ?] | [? ?]]; eauto; done.
Qed.

Lemma is_Some_maxList V N k :
  is_Some (V !! k) ∨ is_Some (N !! k) → is_Some (maxList V N !! k).
Proof.
  rewrite lookup_maxList.
  destruct (V !! k), (N !! k); intros [[? ?] | [? ?]]; eauto; done.
Qed.

Lemma is_Some_growList V O k :
  is_Some (V !! k) → is_Some (growList V O !! k).
Proof. rewrite lookup_growList. destruct (V !! k); eauto. Qed.

Lemma is_Some_fold (F : gmap string Z → gmap string Z → gmap string Z)
    V (ls : list (gmap string Z)) k :
  (∀ V N, is_Some (V !! k) ∨ is_Some (N !! k) → is_Some (F V N !! k)) →
  is_Some (V !! k) ∨ (∃ m, m ∈ ls ∧ is_Some (m !! k)) →
  is_Some (foldl F V ls !! k).
Proof.
  intros HF. revert V. induction ls as [|m ls IH]; intros V H; simpl.
  - destruct H as [H | (m & Hin & _)]; [done | by apply elem_of_nil in Hin].
  - apply IH. destruct H as [H | (m' & Hin & Hm')].
    + left. apply HF. by left.
    + apply elem_of_cons in Hin as [-> | Hin].
      * left. apply HF. by right.
      * right. by exists m'.
Qed.




Lemma zeroAt_fold (F : gmap string Z → gmap string Z → gmap string Z)
    V (ls : list (gmap string Z)) k :
  (∀ V N, zeroAt k V → zeroAt k N → zeroAt k (F V N)) →
  zeroAt k V → Forall (zeroAt k) ls → zeroAt k (foldl F V ls).
Proof.
  intros HF. revert V. induction ls as [|m ls IH]; intros V HV Hls; simpl.
  - done.
  - apply Forall_cons in Hls as [Hm Hls]. apply IH; [| done]. by apply HF.
Qed.


(** The same, when each list is read at its turn: a list other than the
    accumulator brings its names, and zeros stay zeros. *)
Lemma is_Some_foldA {St} (F : gmap string Z → gmap string Z → gmap string Z)
    (w : World St) acc V (l : list ResourceList) k :
  (∀ V N, is_Some (V !! k) ∨ is_Some (N !! k) → is_Some (F V N !! k)) →
  is_Some (V !! k)
  ∨ (∃ rl, rl ∈ l ∧ rl ≠ Some acc ∧ is_Some (view w rl !! k)) →
  is_Some (foldl (λ V rl, F V (cur w acc V rl)) V l !! k).
Proof.
  intros HF. revert V. induction l as [|rl l IH]; intros V H; simpl.
  - destruct H as [H | (rl & Hin & _)]; [done | by apply elem_of_nil in Hin].
  - apply IH. destruct H as [H | (rl' & Hin & Hne & Hk)].
    + left. apply HF. by left.
    + apply elem_of_cons in Hin as [-> | Hin].
      * left. apply HF. right. by rewrite cur_apart.
      * right. by exists rl'.
Qed.


(** ** The caller's observer state *)

Lemma obs_bind {St A B} (c : M St A) (k : A → M St B) (w : World St) :
  obs (snd (c w)) = obs w →
  (∀ a w1, obs (snd (k a w1)) = obs w1) →
  obs (snd ((c ≫= k) w)) = obs w.
Proof.
  intros Hc Hk. unfold mbind, M_bind. destruct (c w) as [a w1]. simpl in *.
  by rewrite Hk.
Qed.

Lemma obs_forEach {St A} (l : list A) (body : A → M St unit) (w : World St) :
  (∀ x w1, obs (snd (body x w1)) = obs w1) →
  obs (snd (forEach l body w)) = obs w.
Proof.
  intros Hbody. revert w. induction l as [|x l IH]; intros w; simpl; [done |].
  apply obs_bind; [apply Hbody | intros _ w1; apply IH].
Qed.

Lemma obs_copy_assign {St} list name q (w : World St) :
  obs (snd ((c ← DeepCopy q; mapAssign list name c) w)) = obs w.
Proof. unfold DeepCopy. destruct (dec q); reflexivity. Qed.

Lemma obs_add_assign {St} list name value q (w : World St) :
  obs (snd ((value' ← Add value q; mapAssign list name value') w)) = obs w.
Proof.
  unfold Add, ToDec.
  destruct (dec value) eqn:Hv, (dec q) eqn:Hq; run_m; rewrite ?Hv;
    reflexivity.
Qed.

Lemma obs_addEntry {St} list name q (w : World St) :
  obs (snd (addEntry list name q w)) = obs w.
Proof.
  unfold addEntry. apply obs_bind; [done |]. intros [value|] w1.
  - apply obs_add_assign.
  - apply obs_copy_assign.
Qed.

Lemma obs_maxEntry {St} list name q (w : World St) :
  obs (snd (maxEntry list name q w)) = obs w.
Proof.
  unfold maxEntry. apply obs_bind; [done |]. intros [value|] w1.
  - apply obs_bind; [done |]. intros cmp w2.
    destruct (0 <? cmp); [apply obs_copy_assign | done].
  - apply obs_copy_assign.
Qed.

Lemma obs_overheadEntry {St} list name q (w : World St) :
  obs (snd (overheadEntry list name q w)) = obs w.
Proof.
  unfold overheadEntry. apply obs_bind; [done |]. intros [value|] w1; [| done].
  apply obs_bind; [done |]. intros z w2.
  destruct (negb z); [apply obs_add_assign | done].
Qed.

Lemma obs_range_loop {St} (body : string → Quantity → M St unit) rl
    (w : World St) :
  (∀ k q w1, obs (snd (body k q w1)) = obs w1) →
  obs (snd ((entries ← mapRange rl;
             forEach entries (λ '(name, quantity), body name quantity)) w))
  = obs w.
Proof.
  intros Hbody. apply obs_bind; [done |]. intros entries w1.
  apply obs_forEach. intros [k q] w2. apply Hbody.
Qed.

Lemma obs_reuseOrClearResourceList {St} reuse (w : World St) :
  obs (snd (reuseOrClearResourceList reuse w)) = obs w.
Proof.
  destruct reuse as [r|]; simpl; [| done].
  apply obs_bind; [done |]. intros entries w1.
  apply obs_bind; [| done].
  apply obs_forEach. by intros [k q] w2.
Qed.

(** Without a [ContainerFn] the caller's observer state is left as it
    is. *)
Lemma obs_container_loop {St} (op : loc → ResourceList → M St unit)
    (opts : PodResourcesOptions St) ty (get : Container → ResourceList)
    cs acc (w : World St) :
  ContainerFn opts = None →
  (∀ rl w1, obs (snd (op acc rl w1)) = obs w1) →
  obs (snd (forEach cs (λ container,
              callContainerFn opts (get container) ty;;
              op acc (get container)) w)) = obs w.
Proof.
  intros Hfn Hop. apply obs_forEach. intros c w1.
  apply obs_bind; [| intros; apply Hop].
  unfold callContainerFn. by rewrite Hfn.
Qed.

Lemma obs_PodRequests {St} pod opts (w : World St) :
  ContainerFn (orDefault opts) = None →
  obs (snd (PodRequests pod opts w)) = obs w.
Proof.
  intros Hfn. unfold PodRequests.
  apply obs_bind; [apply obs_reuseOrClearResourceList |]. intros acc w1.
  apply obs_bind.
  { apply (obs_container_loop addResourceList); [done |].
    intros. apply obs_range_loop. intros. apply obs_addEntry. }
  intros _ w2. apply obs_bind.
  { apply (obs_container_loop maxResourceList); [done |].
    intros. apply obs_range_loop. intros. apply obs_maxEntry. }
  intros _ w3. apply obs_bind; [| done].
  destruct (_ && _); [| done].
  apply obs_range_loop. intros. apply obs_addEntry.
Qed.

Lemma obs_PodLimits {St} pod opts (w : World St) :
  ContainerFn (orDefault opts) = None →
  obs (snd (PodLimits pod opts w)) = obs w.
Proof.
  intros Hfn. unfold PodLimits.
  apply obs_bind; [apply obs_reuseOrClearResourceList |]. intros acc w1.
  apply obs_bind.
  { apply (obs_container_loop addResourceList); [done |].
    intros. apply obs_range_loop. intros. apply obs_addEntry. }
  intros _ w2. apply obs_bind.
  { apply (obs_container_loop maxResourceList); [done |].
    intros. apply obs_range_loop. intros. apply obs_maxEntry. }
  intros _ w3. apply obs_bind; [| done].
  destruct (_ && _); [| done].
  apply obs_range_loop. intros. apply obs_overheadEntry.
Qed.
(* ===================================================================== *)
(** * Part VI: the claims about the resource aggregator                   *)
(* ===================================================================== *)

(** Discharging [call_ok] and [reuse_apart] on a given store by
    evaluation. *)
Ltac solve_call_ok :=
  unfold call_ok; split; [| split; [| split]];
  [ apply (bool_decide_unpack _); vm_compute; exact I
  | intros ? ?; reflexivity
  | apply (bool_decide_unpack _); vm_compute; exact I
  | apply (bool_decide_unpack _); vm_compute; exact I ].

Ltac solve_reuse_apart :=
  intros ?; simpl; intros [= <-] || (intros Heq; discriminate Heq);
  try (apply (bool_decide_unpack _); vm_compute; exact I).

(** C7.  A nil options argument gives [PodRequests] and [PodLimits] the
    default options: the same computation as with the options that have
    nothing to reuse, [ExcludeOverhead] false and no [ContainerFn].  So the
    accumulator returned is a new map, the overhead takes part, and the
    caller's observer state is left as it is. *)
Theorem nil_options_are_defaults {St} (pod : Pod) (w : World St) :
  (PodRequests pod None w
     = PodRequests pod (Some (mkPodResourcesOptions None false None)) w
   ∧ PodLimits pod None w
     = PodLimits pod (Some (mkPodResourcesOptions None false None)) w)
  ∧ (call_ok w pod None →
     post (PodRequests pod None) w (λ reqs w',
       (reqs ∉ dom (maps w)) ∧ obs w' = obs w ∧
       view w' (Some reqs) =
       sumList (merged w (requestLists (Containers (Spec pod)))
                         (requestLists (InitContainers (Spec pod))))
               (view w (Overhead (Spec pod))))
     ∧ post (PodLimits pod None) w (λ limits w',
       (limits ∉ dom (maps w)) ∧ obs w' = obs w ∧
       view w' (Some limits) =
       growList (merged w (limitLists (Containers (Spec pod)))
                          (limitLists (InitContainers (Spec pod))))
                (view w (Overhead (Spec pod))))).
Proof.
  split; [split; reflexivity |].
  intros Hok.
  assert (Hsep : reuse_apart pod (None : option (PodResourcesOptions St))).
  { intros r Hr. discriminate Hr. }
  split.
  - pose proof (PodRequests_Acc w pod None Hok) as H.
    pose proof (obs_PodRequests pod None w eq_refl) as Hobs.
    unfold post in H |- *. destruct H as [HA Hacc]. simpl in Hacc.
    split; [done |]. split; [done |].
    rewrite (Acc_view_acc _ _ _ _ HA). apply requestsOfA_apart.
    by apply (acc_not_in_pod w pod None).
  - pose proof (PodLimits_Acc w pod None Hok) as H.
    pose proof (obs_PodLimits pod None w eq_refl) as Hobs.
    unfold post in H |- *. destruct H as [HA Hacc]. simpl in Hacc.
    split; [done |]. split; [done |].
    rewrite (Acc_view_acc _ _ _ _ HA). apply limitsOfA_apart.
    by apply (acc_not_in_pod w pod None).
Qed.

Lemma nil_options_are_defaults_witness :
  post (PodRequests overheadPod None) (exWorld (λ _ l, l)) (λ reqs w',
    reqs = 8%positive ∧ obs w' = tt ∧
    view w' (Some reqs) = {["cpu" := 4; "memory" := 1073741825]})
  ∧ post (PodLimits overheadPod None) (exWorld (λ _ l, l)) (λ limits w',
    limits = 8%positive ∧ obs w' = tt ∧
    view w' (Some limits) = {["cpu" := 3; "memory" := 0]}).
Proof.
  destruct (nil_options_are_defaults overheadPod (exWorld (λ _ l, l)))
    as [_ H].
  destruct H as [Hr Hl]; [solve_call_ok |].
  unfold post in Hr, Hl |- *.
  destruct Hr as (_ & _ & Hr). destruct Hl as (_ & _ & Hl).
  rewrite Hr, Hl. repeat split; vm_compute; reflexivity.
Defined.





(** With the overhead not excluded, [PodLimits] is [PodLimits] with the
    overhead excluded followed by the overhead loop. *)
Lemma PodLimits_split {St} (w : World St) pod opts :
  ExcludeOverhead (orDefault opts) = false →
  PodLimits pod opts w
  = (fst (PodLimits pod (excludingOverhead opts) w),
     snd (overheadStep pod (fst (PodLimits pod (excludingOverhead opts) w))
            (snd (PodLimits pod (excludingOverhead opts) w)))).
Proof.
  intros Hex. unfold PodLimits, excludingOverhead, overheadStep. simpl.
  rewrite Hex. run_m.
  destruct (reuseOrClearResourceList (Reuse (orDefault opts)) w) as [acc w1].
  unfold callContainerFn. simpl.
  destruct (forEach (Containers (Spec pod)) _ w1) as [u1 w2].
  destruct (forEach (InitContainers (Spec pod)) _ w2) as [u2 w3].
  simpl. by destruct (_ w3).
Qed.

(** C1.  With the overhead not excluded, the result of [PodLimits] is the
    accumulator as it stands before the overhead loop (the result of
    [PodLimits] with the overhead excluded, which ends in the store [w0])
    in which a limit that is there and is not zero has the overhead of its
    name added; a limit that is zero is left as it is, and no name is
    added: the keys are the same. *)
Theorem PodLimits_overhead_on_nonzero {St} (w : World St) pod opts :
  call_ok w pod opts →
  ExcludeOverhead (orDefault opts) = false →
  post (PodLimits pod (excludingOverhead opts)) w (λ limits0 w0,
  post (PodLimits pod opts) w (λ limits w',
    limits = limits0
    ∧ (∀ k, view w' (Some limits) !! k =
            match view w0 (Some limits0) !! k with
            | Some a =>
                if a =? 0 then Some a
                else match view w0 (Overhead (Spec pod)) !! k with
                     | Some b => Some (a + b)
                     | None => Some a
                     end
            | None => None
            end)
    ∧ dom (view w' (Some limits)) = dom (view w0 (Some limits0))
    ∧ (reuse_apart pod opts →
       view w0 (Overhead (Spec pod)) = view w (Overhead (Spec pod))))).
Proof.
  intros Hok Hex. pose proof Hok as (Hcl & Hfair & _).
  assert (Hok0 : call_ok w pod (excludingOverhead opts)) by exact Hok.
  unfold post at 2. rewrite (PodLimits_split w pod opts Hex).
  pose proof (PodLimits_Acc w pod (excludingOverhead opts) Hok0) as H0.
  unfold post in H0 |- *.
  destruct (PodLimits pod (excludingOverhead opts) w) as [acc w0] eqn:Hrun.
  simpl in H0 |- *. destruct H0 as [HA0 Hacc0].
  set (L := limitsOfA w acc pod (excludingOverhead opts)) in *.
  assert (HA : Acc w acc (growList L (view w0 (Overhead (Spec pod))))
                 (snd (overheadStep pod acc w0))).
  { unfold overheadStep. case_bool_decide as Hov.
    - by apply (addOverheadToLimits_Acc w w0 acc L).
    - rewrite Hov, view_nil, growList_empty_r. exact HA0. }
  set (w' := snd (overheadStep pod acc w0)) in *.
  rewrite (Acc_view_acc _ _ _ _ HA), (Acc_view_acc _ _ _ _ HA0).
  assert (Hk : ∀ k, growList L (view w0 (Overhead (Spec pod))) !! k =
          match L !! k with
          | Some a =>
              if a =? 0 then Some a
              else match view w0 (Overhead (Spec pod)) !! k with
                   | Some b => Some (a + b)
                   | None => Some a
                   end
          | None => None
          end).
  { intros k. rewrite lookup_growList.
    destruct (L !! k) as [a|]; [| done].
    destruct (a =? 0); [done |]. by destruct (view w0 _ !! k). }
  split; [done |]. split; [done |]. split.
  - apply set_eq. intros k. rewrite !elem_of_dom, Hk.
    destruct (L !! k) as [a|]; [| done].
    destruct (a =? 0); [done |].
    destruct (view w0 _ !! k); split; eauto.
  - intros Hsep. eapply Acc_view_input; [done | done |].
    eapply (acc_not_in_pod w pod (excludingOverhead opts));
      [done | done | done | apply overhead_in_podLists].
Qed.

Lemma PodLimits_overhead_on_nonzero_witness :
  post (PodLimits overheadPod (Some reuseOptions)) (exWorld (λ _ l, l))
    (λ limits w',
       view w' (Some limits) !! "cpu" = Some 3 ∧
       view w' (Some limits) !! "memory" = Some 0 ∧
       dom (view w' (Some limits)) = {["cpu"; "memory"]}).
Proof.
  pose proof (PodLimits_overhead_on_nonzero (exWorld (λ _ l, l)) overheadPod
                (Some reuseOptions)) as H.
  unfold post in H |- *.
  destruct H as (_ & Hk & Hdom & _); [solve_call_ok | reflexivity |].
  rewrite !Hk, Hdom. repeat split; vm_compute; reflexivity.
Defined.







(** C10.  The result of [PodRequests] and of [PodLimits] does not depend
    on what the map to reuse held before the call: from two stores that
    differ only in the entries of that map, the calls return the same
    accumulator with the same numbers. *)
Theorem reuse_contents_do_not_matter {St} (w1 w2 : World St) pod opts r :
  Reuse (orDefault opts) = Some r →
  call_ok w1 pod opts → call_ok w2 pod opts →
  (∀ r', r' ≠ r → maps w2 !! r' = maps w1 !! r') →
  cells w2 = cells w1 →
  post (PodRequests pod opts) w1 (λ reqs1 w1',
    post (PodRequests pod opts) w2 (λ reqs2 w2',
      reqs1 = reqs2 ∧ view w1' (Some reqs1) = view w2' (Some reqs2)))
  ∧ post (PodLimits pod opts) w1 (λ limits1 w1',
    post (PodLimits pod opts) w2 (λ limits2 w2',
      limits1 = limits2 ∧ view w1' (Some limits1) = view w2' (Some limits2))).
Proof.
  intros Hr Hok1 Hok2 Hmaps Hcells.
  assert (Hview : ∀ rl, rl ≠ Some r → view w2 rl = view w1 rl).
  { intros rl Hne. unfold view, qval. rewrite Hcells. f_equal.
    destruct rl as [r'|]; [| done]. simpl. unfold contents.
    rewrite Hmaps; [done | congruence]. }
  split.
  - eapply post_mono; [| by apply PodRequests_Acc].
    intros reqs1 w1' [HA1 Hacc1]. simpl.
    eapply post_mono; [| by apply PodRequests_Acc].
    intros reqs2 w2' [HA2 Hacc2]. simpl.
    rewrite Hr in Hacc1, Hacc2. subst. split; [done |].
    rewrite (Acc_view_acc _ _ _ _ HA1), (Acc_view_acc _ _ _ _ HA2).
    symmetry. by apply requestsOfA_ext.
  - eapply post_mono; [| by apply PodLimits_Acc].
    intros limits1 w1' [HA1 Hacc1]. simpl.
    eapply post_mono; [| by apply PodLimits_Acc].
    intros limits2 w2' [HA2 Hacc2]. simpl.
    rewrite Hr in Hacc1, Hacc2. subst. split; [done |].
    rewrite (Acc_view_acc _ _ _ _ HA1), (Acc_view_acc _ _ _ _ HA2).
    symmetry. by apply limitsOfA_ext.
Qed.

Lemma reuse_contents_do_not_matter_witness :
  post (PodRequests overheadPod (Some reuseOptions)) (exWorld (λ _ l, l))
    (λ reqs1 w1',
       post (PodRequests overheadPod (Some reuseOptions))
         (exWorldOther (λ _ l, l)) (λ reqs2 w2',
           reqs1 = reqs2 ∧ view w1' (Some reqs1) = view w2' (Some reqs2))).
Proof.
  apply (reuse_contents_do_not_matter (exWorld (λ _ l, l))
           (exWorldOther (λ _ l, l)) overheadPod (Some reuseOptions)
           7%positive);
    [reflexivity | solve_call_ok | solve_call_ok | | reflexivity].
  intros r' Hne. simpl. by apply lookup_insert_ne.
Defined.

(** On a closed store, a list whose entries and cells are as before has
    the numbers it had. *)
Lemma view_agree {St} (w w' : World St) rl :
  heap_closed w → listOf w' rl = listOf w rl →
  (∀ l, l ∈ dom (cells w) → cells w' !! l = cells w !! l) →
  view w' rl = view w rl.
Proof.
  intros Hcl Hl Hc. unfold view. rewrite Hl.
  apply map_eq. intros k. rewrite !lookup_fmap.
  destruct (listOf w rl !! k) as [q|] eqn:Hq; [| done]. simpl. f_equal.
  apply qval_agree. intros l Hdl. apply Hc.
  pose proof (closed_entry _ _ _ _ Hcl Hq) as Hok. unfold cell_ok in Hok.
  by rewrite Hdl in Hok.
Qed.

Lemma Acc_untouched {St} (w w' : World St) pod acc V :
  heap_closed w → (∀ rl, rl ∈ podLists pod → rl ≠ Some acc) →
  Acc w acc V w' → untouched w pod acc w'.
Proof.
  intros Hcl Hne HA.
  assert (Hkept : inputs_kept w pod w').
  { intros rl Hin. split.
    - eapply Acc_listOf; [done | by apply Hne].
    - eapply Acc_view_input; [done | done | by apply Hne]. }
  split; [apply (acc_maps _ _ _ _ HA) |].
  split; [apply (acc_cells _ _ _ _ HA) |].
  split; [done |]. split.
  - intros k q l Hq Hl.
    destruct (acc_owned _ _ _ _ HA k q l Hq Hl) as [Hnew _].
    split; [done |]. intros z rl Hin.
    destruct (Hkept rl Hin) as [Hlist _].
    assert (Hlist' : listOf (snd (writeCell l z w')) rl = listOf w rl)
      by exact Hlist.
    split; [done |]. apply view_agree; [done | done |].
    intros l' Hl'. simpl. rewrite lookup_insert_ne by congruence.
    by apply (acc_cells _ _ _ _ HA).
  - intros k q rl Hin.
    destruct (Hkept rl Hin) as [Hlist _].
    assert (Hlist' : listOf (snd (mapAssign acc k q w')) rl = listOf w rl).
    { rewrite <- Hlist. destruct rl as [r|]; [| done]. simpl. unfold contents.
      simpl. rewrite lookup_insert_ne; [done |].
      intros ->. by apply (Hne (Some r)). }
    split; [done |]. apply view_agree; [done | done |].
    intros l' Hl'. simpl. by apply (acc_cells _ _ _ _ HA).
Qed.

(** C8, as amended.  When the map to reuse, if any, is not one of the
    pod's own resource lists, [PodRequests] and [PodLimits] write no map
    but the accumulator and no existing cell, so the requests, limits and
    overhead of the pod are as they were; and every quantity stored in the
    returned accumulator is a copy of its own: its backing cell was
    allocated by the call, so overwriting it, or assigning to an entry of
    the accumulator, changes no list of the pod. *)
Theorem inputs_are_never_written {St} (w : World St) pod opts :
  call_ok w pod opts → reuse_apart pod opts →
  post (PodRequests pod opts) w (untouched w pod)
  ∧ post (PodLimits pod opts) w (untouched w pod).
Proof.
  intros Hok Hsep. pose proof Hok as (Hcl & _).
  split.
  - eapply post_mono; [| by apply PodRequests_apart].
    intros acc w' [HA Hne]. simpl. by eapply Acc_untouched.
  - eapply post_mono; [| by apply PodLimits_apart].
    intros acc w' [HA Hne]. simpl. by eapply Acc_untouched.
Qed.

Lemma inputs_are_never_written_witness :
  post (PodRequests overheadPod (Some reuseOptions)) (exWorld (λ _ l, l))
    (untouched (exWorld (λ _ l, l)) overheadPod)
  ∧ post (PodLimits overheadPod (Some reuseOptions)) (exWorld (λ _ l, l))
    (untouched (exWorld (λ _ l, l)) overheadPod).
Proof.
  apply (inputs_are_never_written (exWorld (λ _ l, l)) overheadPod
           (Some reuseOptions)); [solve_call_ok | solve_reuse_apart].
Defined.

(** C8, as stated, fails when the map to reuse is one of the pod's own
    lists: that list is then the accumulator, it is emptied and filled
    with the result, and so the pod's list is written.  Here the call is
    well formed, the requests {cpu:1, memory:1Gi} of the first container
    are named as the map to reuse, and they hold {cpu:3, memory:1} after
    the call. *)
Lemma reuse_of_an_input_overwrites_it :
  call_ok (exWorld (λ _ l, l)) overheadPod (Some aliasOptions)
  ∧ Some 1%positive ∈ podLists overheadPod
  ∧ view (exWorld (λ _ l, l)) (Some 1%positive)
    = {["cpu" := 1; "memory" := 1073741824]}
  ∧ view (snd (PodRequests overheadPod (Some aliasOptions)
                 (exWorld (λ _ l, l)))) (Some 1%positive)
    = {["cpu" := 3; "memory" := 1]}
  ∧ ¬ post (PodRequests overheadPod (Some aliasOptions)) (exWorld (λ _ l, l))
        (untouched (exWorld (λ _ l, l)) overheadPod).
Proof.
  assert (Hin : Some 1%positive ∈ podLists overheadPod) by (vm_compute; left).
  split; [solve_call_ok |].
  split; [done |].
  split; [vm_compute; reflexivity |].
  split; [vm_compute; reflexivity |].
  intros (_ & _ & Hkept & _).
  destruct (Hkept (Some 1%positive) Hin) as [_ Hview].
  apply (f_equal (λ m : gmap string Z, m !! "memory")) in Hview.
  vm_compute in Hview. discriminate Hview.
Qed.

(* ===================================================================== *)
(** * Part VII: further properties of the taint matcher                   *)
(* ===================================================================== *)

Lemma filter_sublist {A} (P : A → bool) (l : list A) :
  List.filter P l `sublist_of` l.
Proof.
  induction l as [|x l IH]; simpl; [done |].
  destruct (P x); by constructor.
Qed.

Lemma filter_filter {A} (P : A → bool) (l : list A) :
  List.filter P (List.filter P l) = List.filter P l.
Proof.
  induction l as [|x l IH]; simpl; [done |].
  destruct (P x) eqn:E; simpl; [| done]. by rewrite E, IH.
Qed.

(** X12.  [getFilteredTaints] only drops taints: the result is the input
    with some taints left out, in the same order; every taint of the result
    is kept by the filter; filtering a second time changes nothing; and the
    taints of two slices put end to end are filtered slice by slice. *)
Theorem getFilteredTaints_only_drops taints (inclusionFilter : taintsFilterFunc) :
  getFilteredTaints taints inclusionFilter `sublist_of` taints
  ∧ Forall (λ t, keeps inclusionFilter t = true)
           (getFilteredTaints taints inclusionFilter)
  ∧ getFilteredTaints (getFilteredTaints taints inclusionFilter)
                      inclusionFilter
    = getFilteredTaints taints inclusionFilter
  ∧ ∀ more, getFilteredTaints (taints ++ more) inclusionFilter
            = getFilteredTaints taints inclusionFilter
              ++ getFilteredTaints more inclusionFilter.
Proof.
  rewrite !getFilteredTaints_filter. repeat split.
  - apply filter_sublist.
  - apply Forall_forall. intros t Hin.
    apply list_elem_of_In, List.filter_In in Hin. tauto.
  - apply filter_filter.
  - intros more. rewrite !getFilteredTaints_filter. apply List.filter_app.
Qed.

Lemma scanLoop_app tolerates tolerations l1 l2 :
  scanLoop tolerates tolerations (l1 ++ l2) =
  if snd (scanLoop tolerates tolerations l1)
  then scanLoop tolerates tolerations l1
  else scanLoop tolerates tolerations l2.
Proof.
  induction l1 as [|t l1 IH]; simpl; [done |].
  by destruct (TolerationsTolerateTaint tolerates tolerations t).
Qed.

(** X13.  [FindMatchingUntoleratedTaint] on two slices of taints put end to
    end: the answer for the first slice when it has an untolerated taint,
    otherwise the answer for the second. *)
Theorem FindMatchingUntoleratedTaint_app tolerates taints more tolerations
    (inclusionFilter : taintsFilterFunc) :
  FindMatchingUntoleratedTaint tolerates (taints ++ more) tolerations
    inclusionFilter
  = if snd (FindMatchingUntoleratedTaint tolerates taints tolerations
              inclusionFilter)
    then FindMatchingUntoleratedTaint tolerates taints tolerations
           inclusionFilter
    else FindMatchingUntoleratedTaint tolerates more tolerations
           inclusionFilter.
Proof.
  unfold FindMatchingUntoleratedTaint.
  rewrite !getFilteredTaints_filter, List.filter_app. apply scanLoop_app.
Qed.

(** X17.  [TolerationsTolerateTaint] on two slices of tolerations put end to
    end: the taint is tolerated when either slice tolerates it. *)
Theorem TolerationsTolerateTaint_app tolerates tolerations more taint :
  TolerationsTolerateTaint tolerates (tolerations ++ more) taint
  = TolerationsTolerateTaint tolerates tolerations taint
    || TolerationsTolerateTaint tolerates more taint.
Proof.
  induction tolerations as [|t rest IH]; simpl; [done |].
  by destruct (tolerates t taint).
Qed.

Lemma FindMatching_false_iff tolerates taints tolerations
    (inclusionFilter : taintsFilterFunc) :
  snd (FindMatchingUntoleratedTaint tolerates taints tolerations
         inclusionFilter) = false ↔
  ∀ t, t ∈ taints → keeps inclusionFilter t = true →
       TolerationsTolerateTaint tolerates tolerations t = true.
Proof.
  unfold FindMatchingUntoleratedTaint. rewrite getFilteredTaints_filter.
  destruct (scan_filter_spec tolerates tolerations (keeps inclusionFilter)
              taints)
    as [(pre & t & post & -> & Hs & Hk & Ht & Hpre) | [Hs Hall]];
    rewrite Hs; simpl.
  - split; [done |]. intros Hall.
    rewrite Hall in Ht; [done | | done].
    apply elem_of_app. right. left.
  - done.
Qed.

Lemma FindMatching_false_zero tolerates taints tolerations
    (inclusionFilter : taintsFilterFunc) :
  snd (FindMatchingUntoleratedTaint tolerates taints tolerations
         inclusionFilter) = false →
  FindMatchingUntoleratedTaint tolerates taints tolerations inclusionFilter
  = (zeroTaint, false).
Proof.
  unfold FindMatchingUntoleratedTaint. rewrite getFilteredTaints_filter.
  destruct (scan_filter_spec tolerates tolerations (keeps inclusionFilter)
              taints)
    as [(pre & t & post & -> & Hs & _) | [Hs _]]; rewrite Hs; simpl; done.
Qed.

(** X14.  More tolerations never produce an untolerated taint: when the
    tolerations leave no kept taint untolerated, neither does any list that
    holds them all. *)
Theorem more_tolerations_tolerate_more tolerates taints tolerations
    tolerations' (inclusionFilter : taintsFilterFunc) :
  (∀ t, t ∈ tolerations → t ∈ tolerations') →
  snd (FindMatchingUntoleratedTaint tolerates taints tolerations
         inclusionFilter) = false →
  FindMatchingUntoleratedTaint tolerates taints tolerations' inclusionFilter
  = (zeroTaint, false).
Proof.
  intros Hsub Hnone. apply FindMatching_false_zero.
  apply FindMatching_false_iff. intros t Hin Hk.
  rewrite FindMatching_false_iff in Hnone.
  specialize (Hnone t Hin Hk).
  apply tolerate_exists in Hnone as (tol & Htol & Hok).
  apply tolerate_exists. exists tol. split; [by apply Hsub | done].
Qed.

Lemma more_tolerations_tolerate_more_witness :
  FindMatchingUntoleratedTaint exampleTolerates [taintA; taintB]
    [tolerationOther; tolerationB] onlyNoExecute = (zeroTaint, false).
Proof.
  apply (more_tolerations_tolerate_more exampleTolerates [taintA; taintB]
           [tolerationB] [tolerationOther; tolerationB] onlyNoExecute).
  - intros t Hin. apply list_elem_of_singleton in Hin as ->. right. left.
  - vm_compute. reflexivity.
Defined.

(** X15.  A filter that keeps fewer taints never produces an untolerated
    taint: when no taint kept by one filter is untolerated, none is under a
    filter that keeps only taints the first one keeps.  With the nil filter
    as the first one: when no taint at all is untolerated, none is under any
    filter. *)
Theorem narrower_filter_finds_less tolerates taints tolerations
    (inclusionFilter inclusionFilter' : taintsFilterFunc) :
  (∀ t, t ∈ taints → keeps inclusionFilter' t = true →
        keeps inclusionFilter t = true) →
  snd (FindMatchingUntoleratedTaint tolerates taints tolerations
         inclusionFilter) = false →
  FindMatchingUntoleratedTaint tolerates taints tolerations inclusionFilter'
  = (zeroTaint, false).
Proof.
  intros Hsub Hnone. apply FindMatching_false_zero.
  apply FindMatching_false_iff. intros t Hin Hk.
  rewrite FindMatching_false_iff in Hnone. apply Hnone; [done |].
  by apply Hsub.
Qed.

Lemma narrower_filter_finds_less_witness :
  FindMatchingUntoleratedTaint exampleTolerates [taintB; taintB]
    [tolerationB] onlyNoExecute = (zeroTaint, false).
Proof.
  apply (narrower_filter_finds_less exampleTolerates [taintB; taintB]
           [tolerationB] None onlyNoExecute).
  - intros t _ _. reflexivity.
  - vm_compute. reflexivity.
Defined.

Lemma scanLoop_ext tolerates tolerations tolerations' l :
  (∀ taint, TolerationsTolerateTaint tolerates tolerations' taint
            = TolerationsTolerateTaint tolerates tolerations taint) →
  scanLoop tolerates tolerations' l = scanLoop tolerates tolerations l.
Proof.
  intros Hsame. induction l as [|t l IH]; simpl; [done |].
  by rewrite Hsame, IH.
Qed.

(** X16.  Only which tolerations are there matters to
    [FindMatchingUntoleratedTaint], not their order nor how often each
    occurs: two lists with the same tolerations give the same answer, the
    same taint included. *)
Theorem tolerations_are_used_as_a_set tolerates taints tolerations
    tolerations' (inclusionFilter : taintsFilterFunc) :
  (∀ t, t ∈ tolerations' ↔ t ∈ tolerations) →
  FindMatchingUntoleratedTaint tolerates taints tolerations' inclusionFilter
  = FindMatchingUntoleratedTaint tolerates taints tolerations
      inclusionFilter.
Proof.
  intros Hsame. unfold FindMatchingUntoleratedTaint. apply scanLoop_ext.
  intros taint. apply eq_true_iff_eq. rewrite !tolerate_exists.
  split; intros (t & Hin & Ht); exists t; (split; [by apply Hsame | done]).
Qed.

Lemma tolerations_are_used_as_a_set_witness :
  FindMatchingUntoleratedTaint exampleTolerates [taintA; taintB]
    [tolerationB; tolerationOther; tolerationB] None
  = FindMatchingUntoleratedTaint exampleTolerates [taintA; taintB]
      [tolerationOther; tolerationB] None.
Proof.
  apply tolerations_are_used_as_a_set. intros t.
  rewrite !elem_of_cons, !elem_of_nil. tauto.
Defined.

(* ===================================================================== *)
(** * Part VIII: further properties of the resource aggregator            *)
(* ===================================================================== *)

(** ** The calls to [ContainerFn] *)

Lemma obs_bind_to {St A B} (c : M St A) (k : A → M St B) (w : World St)
    (g : St → St) :
  (∀ a w1, obs (snd (k a w1)) = g (obs w1)) →
  obs (snd ((c ≫= k) w)) = g (obs (snd (c w))).
Proof.
  intros Hk. unfold mbind, M_bind. destruct (c w) as [a w1]. simpl.
  apply Hk.
Qed.

Lemma obs_observed_loop {St} (op : loc → ResourceList → M St unit)
    (opts : PodResourcesOptions St) step ty (get : Container → ResourceList)
    cs acc (w : World St) :
  ContainerFn opts = Some (observer step) →
  (∀ rl w1, obs (snd (op acc rl w1)) = obs w1) →
  obs (snd (forEach cs (λ container,
              callContainerFn opts (get container) ty;;
              op acc (get container)) w))
  = foldl (λ o c, step (get c) ty o) (obs w) cs.
Proof.
  intros Hfn Hop. revert w.
  induction cs as [|c cs IH]; intros w; simpl; [done |].
  rewrite (obs_bind_to _ _ _ (λ o, foldl (λ o c, step (get c) ty o) o cs))
    by (intros _ w1; apply IH).
  f_equal.
  rewrite (obs_bind_to _ _ _ id) by (intros _ w1; apply Hop).
  unfold callContainerFn. by rewrite Hfn.
Qed.

Lemma obs_observed_calls {St} (op last : loc → ResourceList → M St unit)
    (get : Container → ResourceList) step pod reuse excludeOverhead
    (w : World St) :
  (∀ acc rl (w1 : World St), obs (snd (op acc rl w1)) = obs w1) →
  (∀ acc rl (w1 : World St), obs (snd (last acc rl w1)) = obs w1) →
  let opts := mkPodResourcesOptions reuse excludeOverhead
                (Some (observer step)) in
  obs (snd ((acc ← reuseOrClearResourceList (Reuse opts);
             forEach (Containers (Spec pod)) (λ container,
               callContainerFn opts (get container) ContainerTypeContainers;;
               op acc (get container));;
             forEach (InitContainers (Spec pod)) (λ container,
               callContainerFn opts (get container)
                 ContainerTypeInitContainers;;
               maxResourceList acc (get container));;
             (if negb (ExcludeOverhead opts)
                 && bool_decide (Overhead (Spec pod) ≠ None)
              then last acc (Overhead (Spec pod))
              else mret tt);;
             mret acc) w))
  = foldl (λ o '(res, ty), step res ty o) (obs w) (containerCalls get pod).
Proof.
  intros Hop Hlast opts.
  rewrite (obs_bind_to _ _ _
             (λ o, foldl (λ o '(res, ty), step res ty o) o
                     (containerCalls get pod))).
  { by rewrite obs_reuseOrClearResourceList. }
  intros acc w1. unfold containerCalls. rewrite foldl_app, !foldl_fmap.
  rewrite (obs_bind_to _ _ _
             (λ o, foldl (λ o c, step (get c) ContainerTypeInitContainers o) o
                     (InitContainers (Spec pod)))).
  { f_equal. by apply (obs_observed_loop op). }
  intros _ w2.
  rewrite (obs_bind_to _ _ _ id).
  { apply (obs_observed_loop maxResourceList); [done |].
    intros. apply obs_range_loop. intros. apply obs_maxEntry. }
  intros _ w3. apply obs_bind; [| done].
  destruct (_ && _); [apply Hlast | done].
Qed.

Lemma obs_addResourceList {St} acc rl (w : World St) :
  obs (snd (addResourceList acc rl w)) = obs w.
Proof. apply obs_range_loop. intros. apply obs_addEntry. Qed.

Lemma obs_addOverheadToLimits {St} acc rl (w : World St) :
  obs (snd (addOverheadToLimits acc rl w)) = obs w.
Proof. apply obs_range_loop. intros. apply obs_overheadEntry. Qed.

(** X1.  [PodRequests] and [PodLimits] call [ContainerFn] once for each
    regular container, in sequence order, with the container's requests
    (limits) and [ContainerTypeContainers], then once for each init
    container, in sequence order, with [ContainerTypeInitContainers], and at
    no other time: not for the overhead, and whatever [Reuse] and
    [ExcludeOverhead] are.  For a [ContainerFn] that keeps a state of its
    own, the state at the end is the one these calls lead to; for the one
    that logs its arguments, the log has grown by exactly these calls. *)
Theorem ContainerFn_called_once_per_container :
  (∀ St (step : ResourceList → ContainerType → St → St) pod reuse
     excludeOverhead (w : World St),
     obs (snd (PodRequests pod
                 (Some (mkPodResourcesOptions reuse excludeOverhead
                          (Some (observer step)))) w))
     = foldl (λ o '(res, ty), step res ty o) (obs w)
         (containerCalls (λ c, Requests (Resources c)) pod)
     ∧ obs (snd (PodLimits pod
                   (Some (mkPodResourcesOptions reuse excludeOverhead
                            (Some (observer step)))) w))
       = foldl (λ o '(res, ty), step res ty o) (obs w)
           (containerCalls (λ c, Limits (Resources c)) pod))
  ∧ (∀ pod reuse excludeOverhead w,
       obs (snd (PodRequests pod
                   (Some (mkPodResourcesOptions reuse excludeOverhead
                            (Some recorder))) w))
       = obs w ++ containerCalls (λ c, Requests (Resources c)) pod
       ∧ obs (snd (PodLimits pod
                     (Some (mkPodResourcesOptions reuse excludeOverhead
                              (Some recorder))) w))
         = obs w ++ containerCalls (λ c, Limits (Resources c)) pod).
Proof.
  assert (Hgen : ∀ St (step : ResourceList → ContainerType → St → St) pod
            reuse excludeOverhead (w : World St),
     obs (snd (PodRequests pod
                 (Some (mkPodResourcesOptions reuse excludeOverhead
                          (Some (observer step)))) w))
     = foldl (λ o '(res, ty), step res ty o) (obs w)
         (containerCalls (λ c, Requests (Resources c)) pod)
     ∧ obs (snd (PodLimits pod
                   (Some (mkPodResourcesOptions reuse excludeOverhead
                            (Some (observer step)))) w))
       = foldl (λ o '(res, ty), step res ty o) (obs w)
           (containerCalls (λ c, Limits (Resources c)) pod)).
  { intros St step pod reuse excludeOverhead w. split.
    - apply (obs_observed_calls addResourceList addResourceList).
      + intros. apply obs_addResourceList.
      + intros. apply obs_addResourceList.
    - apply (obs_observed_calls addResourceList addOverheadToLimits).
      + intros. apply obs_addResourceList.
      + intros. apply obs_addOverheadToLimits. }
  split; [exact Hgen |].
  assert (Hlog : ∀ (calls : list (ResourceList * ContainerType)) log,
            foldl (λ o '(res, ty), o ++ [(res, ty)]) log calls
            = log ++ calls).
  { induction calls as [|[res ty] calls IH]; intros log; simpl.
    - by rewrite app_nil_r.
    - by rewrite IH, <- app_assoc. }
  intros pod reuse excludeOverhead w. unfold recorder.
  destruct (Hgen _ (λ res containerType log, log ++ [(res, containerType)])
              pod reuse excludeOverhead w) as [Hr Hl].
  rewrite Hr, Hl, !Hlog. done.
Qed.

(** The calls made for the pod of the examples with requests
    {cpu:1, memory:1Gi} and {cpu:2} and an init container requesting
    {cpu:5}: three calls, the types being 1, 1 and 2. *)
Example recorder_log_of_mixedPod :
  obs (snd (PodRequests mixedPod
              (Some (mkPodResourcesOptions None false (Some recorder)))
              exWorldLog))
  = [(Some 1%positive, 1); (Some 2%positive, 1); (Some 3%positive, 2)].
Proof. vm_compute. reflexivity. Qed.

(** ** The names of the result *)

Lemma is_Some_sumList_inv V N k :
  is_Some (sumList V N !! k) → is_Some (V !! k) ∨ is_Some (N !! k).
Proof.
  rewrite lookup_sumList.
  destruct (V !! k), (N !! k); intros H; eauto.
Qed.

Lemma is_Some_maxList_inv V N k :
  is_Some (maxList V N !! k) → is_Some (V !! k) ∨ is_Some (N !! k).
Proof.
  rewrite lookup_maxList.
  destruct (V !! k), (N !! k); intros H; eauto.
Qed.

Lemma is_Some_growList_inv V O k :
  is_Some (growList V O !! k) → is_Some (V !! k).
Proof.
  rewrite lookup_growList. destruct (V !! k); intros H; eauto.
Qed.

Lemma is_Some_foldA_inv {St}
    (F : gmap string Z → gmap string Z → gmap string Z)
    (w : World St) acc V (l : list ResourceList) k :
  (∀ V N, is_Some (F V N !! k) → is_Some (V !! k) ∨ is_Some (N !! k)) →
  is_Some (foldl (λ V rl, F V (cur w acc V rl)) V l !! k) →
  is_Some (V !! k)
  ∨ (∃ rl, rl ∈ l ∧ rl ≠ Some acc ∧ is_Some (view w rl !! k)).
Proof.
  intros HF. revert V. induction l as [|rl l IH]; intros V; simpl; [eauto |].
  intros H. apply IH in H as [H | (rl' & Hin & Hne & Hk)].
  - apply HF in H as [H | H]; [by left |].
    unfold cur in H. case_decide as Hrl; [by left |].
    right. exists rl. split; [left | done].
  - right. exists rl'. split; [by right | done].
Qed.

(** The names of the merge of the containers are the names of the lists
    that are not the accumulator itself. *)
Lemma keys_mergedA {St} (w : World St) acc regular init k :
  is_Some (mergedA w acc regular init !! k) ↔
  ∃ rl, rl ∈ regular ++ init ∧ rl ≠ Some acc ∧ is_Some (view w rl !! k).
Proof.
  unfold mergedA. split.
  - intros H.
    destruct (is_Some_foldA_inv maxList w acc _ init k
                (λ V N, is_Some_maxList_inv V N k) H)
      as [H1 | (rl & Hin & Hne & Hk)].
    + destruct (is_Some_foldA_inv sumList w acc _ regular k
                  (λ V N, is_Some_sumList_inv V N k) H1)
        as [H2 | (rl & Hin & Hne & Hk)].
      * rewrite lookup_empty in H2. by destruct H2.
      * exists rl. split; [apply elem_of_app; by left | done].
    + exists rl. split; [apply elem_of_app; by right | done].
  - intros (rl & Hin & Hne & Hk).
    apply is_Some_foldA; [intros ? ?; apply is_Some_maxList |].
    apply elem_of_app in Hin as [Hin | Hin].
    + left. apply is_Some_foldA; [intros ? ?; apply is_Some_sumList |].
      right. by exists rl.
    + right. by exists rl.
Qed.

Lemma cur_empty_is_Some {St} (w : World St) acc rl k :
  is_Some (cur w acc ∅ rl !! k) ↔ rl ≠ Some acc ∧ is_Some (view w rl !! k).
Proof.
  unfold cur. case_decide as Hrl.
  - rewrite lookup_empty. split; [intros H; by destruct H | intros [? _]; done].
  - tauto.
Qed.

(** Once the accumulator has been obtained, a list of the pod reads as it
    did before the call when the map to reuse is not one of the pod's
    lists. *)
Lemma afterClear_apart {St} (w : World St) pod opts rl :
  call_ok w pod opts → reuse_apart pod opts → rl ∈ podLists pod →
  view (afterClear opts w) rl = view w rl.
Proof.
  intros Hok Hsep Hin. pose proof Hok as (Hcl & Hfair & Halloc & Hreuse).
  unfold afterClear. rewrite (view_after_clear w pod opts _ Hok).
  apply cur_apart.
  pose proof (reuseOrClearResourceList_Acc w _ Hfair Hreuse) as H.
  unfold post in H. destruct H as [_ Hacc].
  by apply (acc_not_in_pod w pod opts).
Qed.

(** X2.  [PodRequests] and [PodLimits] make up no resource name.  The keys
    of the requests are exactly the names found in the requests of the
    regular and init containers and in the overhead that takes part; the
    keys of the limits are exactly the names found in the limits of the
    regular and init containers, the overhead adding none.  The lists are
    read once the accumulator has been obtained, which is as they were
    before the call when the map to reuse is not one of the pod's lists. *)
Theorem result_names_are_the_lists_names {St} (w : World St) pod opts :
  call_ok w pod opts →
  post (PodRequests pod opts) w (λ reqs w', ∀ k,
    is_Some (view w' (Some reqs) !! k) ↔
    ∃ rl, rl ∈ requestLists (Containers (Spec pod))
               ++ requestLists (InitContainers (Spec pod))
               ++ [overheadOf pod opts]
          ∧ is_Some (view (afterClear opts w) rl !! k))
  ∧ post (PodLimits pod opts) w (λ limits w', ∀ k,
    is_Some (view w' (Some limits) !! k) ↔
    ∃ rl, rl ∈ limitLists (Containers (Spec pod))
               ++ limitLists (InitContainers (Spec pod))
          ∧ is_Some (view (afterClear opts w) rl !! k))
  ∧ (reuse_apart pod opts →
     ∀ rl, rl ∈ podLists pod → view (afterClear opts w) rl = view w rl).
Proof.
  intros Hok. split; [| split].
  - pose proof (PodRequests_Acc w pod opts Hok) as H.
    pose proof (PodRequests_fst w pod opts) as Hfst.
    unfold post in H |- *. destruct H as [HA _].
    set (reqs := fst (PodRequests pod opts w)) in *.
    intros k. rewrite (Acc_view_acc _ _ _ _ HA).
    assert (Hview : ∀ rl, is_Some (view (afterClear opts w) rl !! k) ↔
                          rl ≠ Some reqs ∧ is_Some (view w rl !! k)).
    { intros rl. unfold afterClear.
      rewrite (view_after_clear w pod opts _ Hok), <- Hfst.
      apply cur_empty_is_Some. }
    unfold requestsOfA. simpl. split.
    + intros H. apply is_Some_sumList_inv in H.
      assert (HL : is_Some (mergedA w reqs
                     (requestLists (Containers (Spec pod)))
                     (requestLists (InitContainers (Spec pod))) !! k) →
                   ∃ rl, rl ∈ requestLists (Containers (Spec pod))
                              ++ requestLists (InitContainers (Spec pod))
                              ++ [overheadOf pod opts]
                         ∧ is_Some (view (afterClear opts w) rl !! k)).
      { intros (rl & Hin & Hne & Hk)%keys_mergedA. exists rl. split.
        - rewrite app_assoc. apply elem_of_app. by left.
        - by apply Hview. }
      destruct H as [H | H]; [by apply HL |].
      unfold cur in H. case_decide as Hov; [by apply HL |].
      exists (overheadOf pod opts). split.
      * rewrite !elem_of_app. right; right. left.
      * by apply Hview.
    + intros (rl & Hin & [Hne Hk]%Hview).
      rewrite app_assoc in Hin. apply elem_of_app in Hin as [Hin | Hin].
      * apply is_Some_sumList. left. apply keys_mergedA. by exists rl.
      * apply list_elem_of_singleton in Hin as ->.
        apply is_Some_sumList. right. by rewrite cur_apart.
  - pose proof (PodLimits_Acc w pod opts Hok) as H.
    pose proof (PodLimits_fst w pod opts) as Hfst.
    unfold post in H |- *. destruct H as [HA _].
    set (limits := fst (PodLimits pod opts w)) in *.
    intros k. rewrite (Acc_view_acc _ _ _ _ HA).
    assert (Hview : ∀ rl, is_Some (view (afterClear opts w) rl !! k) ↔
                          rl ≠ Some limits ∧ is_Some (view w rl !! k)).
    { intros rl. unfold afterClear.
      rewrite (view_after_clear w pod opts _ Hok), <- Hfst.
      apply cur_empty_is_Some. }
    unfold limitsOfA. simpl. split.
    + intros (rl & Hin & Hne & Hk)%is_Some_growList_inv%keys_mergedA.
      exists rl. split; [done | by apply Hview].
    + intros (rl & Hin & [Hne Hk]%Hview).
      apply is_Some_growList, keys_mergedA. by exists rl.
  - intros Hsep rl Hin. by apply (afterClear_apart w pod opts).
Qed.

Lemma result_names_are_the_lists_names_witness :
  post (PodLimits overheadPod None) (exWorld (λ _ l, l)) (λ limits w',
    is_Some (view w' (Some limits) !! "cpu") ∧
    ¬ is_Some (view w' (Some limits) !! "gpu")).
Proof.
  pose proof (result_names_are_the_lists_names (exWorld (λ _ l, l))
                overheadPod None) as (_ & H & _); [solve_call_ok |].
  eapply post_mono; [| exact H].
  intros limits w' Hk. simpl in Hk. split.
  - apply Hk. exists (Some 4%positive). split; [left |].
    vm_compute. eauto.
  - intros (rl & Hin & Hsome)%Hk.
    repeat (apply elem_of_cons in Hin as [-> | Hin]);
      [| | by apply elem_of_nil in Hin];
      vm_compute in Hsome; by destruct Hsome.
Defined.

(** ** The order of the containers *)

Lemma sumList_swap V a b :
  sumList (sumList V a) b = sumList (sumList V b) a.
Proof.
  apply map_eq. intros k. rewrite !lookup_sumList.
  destruct (V !! k), (a !! k), (b !! k); simpl; f_equal; lia.
Qed.

Lemma maxList_swap V a b :
  maxList (maxList V a) b = maxList (maxList V b) a.
Proof.
  apply map_eq. intros k. rewrite !lookup_maxList.
  destruct (V !! k), (a !! k), (b !! k); simpl; f_equal; lia.
Qed.

Lemma foldl_swap_Permutation {A B} (F : B → A → B) (l1 l2 : list A) :
  (∀ V a b, F (F V a) b = F (F V b) a) →
  l1 ≡ₚ l2 → ∀ V, foldl F V l1 = foldl F V l2.
Proof.
  intros Hswap Hperm.
  induction Hperm as [|x l1 l2 _ IH|x y l|l1 l2 l3 _ IH1 _ IH2];
    intros V; simpl.
  - done.
  - apply IH.
  - by rewrite Hswap.
  - by rewrite IH1, IH2.
Qed.

Lemma merged_Permutation {St} (w : World St) regular regular' init init' :
  regular' ≡ₚ regular → init' ≡ₚ init →
  merged w regular' init' = merged w regular init.
Proof.
  intros Hr Hi. unfold merged.
  rewrite (foldl_swap_Permutation sumList (view w <$> regular')
             (view w <$> regular) sumList_swap) by by rewrite Hr.
  apply (foldl_swap_Permutation maxList); [apply maxList_swap |].
  by rewrite Hi.
Qed.

Lemma podLists_Permutation pod pod' :
  Containers (Spec pod') ≡ₚ Containers (Spec pod) →
  InitContainers (Spec pod') ≡ₚ InitContainers (Spec pod) →
  Overhead (Spec pod') = Overhead (Spec pod) →
  podLists pod' ≡ₚ podLists pod.
Proof.
  intros Hc Hi Ho. unfold podLists, requestLists, limitLists.
  by rewrite Hc, Hi, Ho.
Qed.

(** X5.  The order of the regular containers among themselves, and of the
    init containers among themselves, does not matter to the numbers
    [PodRequests] and [PodLimits] return, when the map to reuse is not one
    of the pod's lists: a pod with the same containers in another order gets
    the same accumulator with the same numbers. *)
Theorem container_order_does_not_matter {St} (w : World St) pod pod' opts :
  call_ok w pod opts → reuse_apart pod opts →
  Containers (Spec pod') ≡ₚ Containers (Spec pod) →
  InitContainers (Spec pod') ≡ₚ InitContainers (Spec pod) →
  Overhead (Spec pod') = Overhead (Spec pod) →
  post (PodRequests pod opts) w (λ reqs w1,
    post (PodRequests pod' opts) w (λ reqs' w1',
      reqs' = reqs ∧ view w1' (Some reqs') = view w1 (Some reqs)))
  ∧ post (PodLimits pod opts) w (λ limits w1,
    post (PodLimits pod' opts) w (λ limits' w1',
      limits' = limits ∧ view w1' (Some limits') = view w1 (Some limits))).
Proof.
  intros Hok Hsep Hc Hi Ho.
  pose proof (podLists_Permutation pod pod' Hc Hi Ho) as Hperm.
  assert (Hok' : call_ok w pod' opts).
  { destruct Hok as (Hcl & Hfair & Halloc & Hreuse).
    repeat split; try done. by rewrite Hperm. }
  assert (Hsep' : reuse_apart pod' opts).
  { intros r Hr. rewrite Hperm. by apply Hsep. }
  assert (Hov : overheadOf pod' opts = overheadOf pod opts).
  { unfold overheadOf. by rewrite Ho. }
  split.
  - pose proof (PodRequests_apart w pod opts Hok Hsep) as H.
    pose proof (PodRequests_apart w pod' opts Hok' Hsep') as H'.
    unfold post in *. destruct H as [HA _], H' as [HA' _].
    split; [by rewrite !PodRequests_fst |].
    rewrite (Acc_view_acc _ _ _ _ HA), (Acc_view_acc _ _ _ _ HA').
    unfold requestsOf. rewrite Hov. f_equal.
    apply merged_Permutation; unfold requestLists; by rewrite ?Hc, ?Hi.
  - pose proof (PodLimits_apart w pod opts Hok Hsep) as H.
    pose proof (PodLimits_apart w pod' opts Hok' Hsep') as H'.
    unfold post in *. destruct H as [HA _], H' as [HA' _].
    split; [by rewrite !PodLimits_fst |].
    rewrite (Acc_view_acc _ _ _ _ HA), (Acc_view_acc _ _ _ _ HA').
    unfold limitsOf. rewrite Hov. f_equal.
    apply merged_Permutation; unfold limitLists; by rewrite ?Hc, ?Hi.
Qed.

(** [overheadPod] with its two containers the other way round. *)
Lemma container_order_does_not_matter_witness :
  post (PodRequests overheadPod None) (exWorld (λ _ l, l)) (λ reqs w1,
    post (PodRequests
            (mkPod (mkPodSpec
               [exContainer (Some 5%positive) (Some 2%positive);
                exContainer (Some 4%positive) (Some 1%positive)]
               [] (Some 6%positive))) None) (exWorld (λ _ l, l))
      (λ reqs' w1',
         reqs' = reqs ∧ view w1' (Some reqs') = view w1 (Some reqs))).
Proof.
  refine (proj1 (container_order_does_not_matter (exWorld (λ _ l, l))
                   overheadPod _ None _ _ _ _ _)).
  - solve_call_ok.
  - solve_reuse_apart.
  - apply Permutation_swap.
  - reflexivity.
  - reflexivity.
Defined.

(** ** The overhead in the requests *)

(** X4.  [PodRequests] adds the overhead last, after the maximum with the
    init containers: when the map to reuse is not one of the pod's lists,
    the requests with the overhead are the requests with the overhead
    excluded plus the overhead, name by name, a name of the overhead alone
    being added with the overhead's number. *)
Theorem PodRequests_overhead_is_added_last {St} (w : World St) pod opts :
  call_ok w pod opts → reuse_apart pod opts →
  post (PodRequests pod (excludingOverhead opts)) w (λ reqs0 w0,
    post (PodRequests pod opts) w (λ reqs w',
      reqs = reqs0 ∧
      view w' (Some reqs)
      = sumList (view w0 (Some reqs0)) (view w (overheadOf pod opts)) ∧
      ∀ k, view w' (Some reqs) !! k =
           match view w0 (Some reqs0) !! k,
                 view w (overheadOf pod opts) !! k with
           | Some a, Some b => Some (a + b)
           | Some a, None => Some a
           | None, o => o
           end)).
Proof.
  intros Hok Hsep.
  assert (Hok0 : call_ok w pod (excludingOverhead opts)).
  { destruct Hok as (Hcl & Hfair & Halloc & Hreuse). by repeat split. }
  assert (Hsep0 : reuse_apart pod (excludingOverhead opts)).
  { intros r Hr. by apply Hsep. }
  pose proof (PodRequests_apart w pod opts Hok Hsep) as H.
  pose proof (PodRequests_apart w pod _ Hok0 Hsep0) as H0.
  unfold post in *. destruct H as [HA _], H0 as [HA0 _].
  assert (Heq : view (snd (PodRequests pod opts w))
                  (Some (fst (PodRequests pod opts w)))
                = sumList
                    (view (snd (PodRequests pod (excludingOverhead opts) w))
                       (Some (fst (PodRequests pod (excludingOverhead opts)
                                     w))))
                    (view w (overheadOf pod opts))).
  { rewrite (Acc_view_acc _ _ _ _ HA), (Acc_view_acc _ _ _ _ HA0).
    unfold requestsOf.
    assert (overheadOf pod (excludingOverhead opts) = None) as -> by done.
    by rewrite view_nil, sumList_empty_r. }
  split; [by rewrite !PodRequests_fst | split; [done |]].
  intros k. rewrite Heq. apply lookup_sumList.
Qed.

(** Requests {cpu:1, memory:1Gi} and {cpu:2} with the overhead
    {cpu:1, memory:1}. *)
Lemma PodRequests_overhead_is_added_last_witness :
  post (PodRequests overheadPod (excludingOverhead None)) (exWorld (λ _ l, l))
    (λ reqs0 w0,
       post (PodRequests overheadPod None) (exWorld (λ _ l, l)) (λ reqs w',
         view w0 (Some reqs0) = {["cpu" := 3; "memory" := 1073741824]} ∧
         view w' (Some reqs) = {["cpu" := 4; "memory" := 1073741825]})).
Proof.
  pose proof (PodRequests_overhead_is_added_last (exWorld (λ _ l, l))
                overheadPod None) as H.
  unfold post in H |- *.
  destruct H as (_ & H & _); [solve_call_ok | solve_reuse_apart |].
  rewrite H. split; vm_compute; reflexivity.
Defined.

(** ** Init containers as a floor *)

Lemma fold_maxList_bounds (V : gmap string Z) (ls : list (gmap string Z)) k z :
  foldl maxList V ls !! k = Some z →
  (∀ a, V !! k = Some a → a ≤ z)
  ∧ (∀ m v, m ∈ ls → m !! k = Some v → v ≤ z)
  ∧ (V !! k = Some z ∨ ∃ m, m ∈ ls ∧ m !! k = Some z).
Proof.
  revert V. induction ls as [|m ls IH]; intros V; simpl.
  - intros Hz. split; [| split].
    + intros a Ha. rewrite Ha in Hz. injection Hz as ->. lia.
    + intros m v Hin. by apply elem_of_nil in Hin.
    + by left.
  - intros Hz. destruct (IH _ Hz) as (Hlow & Hall & Hmax).
    rewrite lookup_maxList in Hlow, Hmax. split; [| split].
    + intros a Ha. rewrite Ha in Hlow.
      destruct (m !! k) as [b|]; [specialize (Hlow _ eq_refl); lia |].
      by apply Hlow.
    + intros m' v Hin Hv. apply elem_of_cons in Hin as [-> | Hin].
      * rewrite Hv in Hlow.
        destruct (V !! k) as [a|]; [specialize (Hlow _ eq_refl); lia |].
        by apply Hlow.
      * by apply (Hall m').
    + destruct Hmax as [Hmax | (m' & Hin & Hm')].
      * destruct (V !! k) as [a|] eqn:Ha, (m !! k) as [b|] eqn:Hb;
          simpl in Hmax; try done.
        -- injection Hmax as Hmax.
           destruct (Z.max_spec a b) as [[_ Hab] | [_ Hab]].
           ++ right. exists m. split; [left | congruence].
           ++ left. congruence.
        -- by left.
        -- right. exists m. split; [left | congruence].
      * right. exists m'. split; [by right | done].
Qed.

Lemma merged_is_max {St} (w : World St) regular init k z :
  merged w regular init !! k = Some z →
  (∀ s, sumAt k (view w <$> regular) = Some s → s ≤ z)
  ∧ (∀ rl v, rl ∈ init → view w rl !! k = Some v → v ≤ z)
  ∧ (sumAt k (view w <$> regular) = Some z
     ∨ ∃ rl, rl ∈ init ∧ view w rl !! k = Some z).
Proof.
  unfold merged. intros Hz.
  apply fold_maxList_bounds in Hz as (Hlow & Hall & Hmax).
  assert (Hsum : foldl sumList ∅ (view w <$> regular) !! k
                 = sumAt k (view w <$> regular)).
  { rewrite fold_sumList_lookup, lookup_empty. unfold sumAt.
    by destruct (present k _). }
  rewrite Hsum in Hlow, Hmax. split; [done | split].
  - intros rl v Hin Hv. apply (Hall (view w rl)); [| done].
    apply list_elem_of_fmap. by exists rl.
  - destruct Hmax as [Hmax | (m & Hin & Hm)]; [by left |].
    apply list_elem_of_fmap in Hin as (rl & -> & Hin).
    right. by exists rl.
Qed.

(** X3.  Init containers define the minimum of any resource.  When no
    overhead takes part and the map to reuse is not one of the pod's lists,
    the number [PodRequests] returns under a name is the greatest of the sum
    over the regular containers that have the name and of the numbers the
    init containers have under it: it is at least each of them and it is one
    of them.  Likewise for [PodLimits]. *)
Theorem init_containers_are_a_floor {St} (w : World St) pod opts :
  call_ok w pod opts → reuse_apart pod opts →
  overheadOf pod opts = None →
  post (PodRequests pod opts) w (λ reqs w', ∀ k z,
    view w' (Some reqs) !! k = Some z →
    (∀ s, sumAt k (view w <$> requestLists (Containers (Spec pod))) = Some s →
          s ≤ z)
    ∧ (∀ c v, c ∈ InitContainers (Spec pod) →
              view w (Requests (Resources c)) !! k = Some v → v ≤ z)
    ∧ (sumAt k (view w <$> requestLists (Containers (Spec pod))) = Some z
       ∨ ∃ c, c ∈ InitContainers (Spec pod)
              ∧ view w (Requests (Resources c)) !! k = Some z))
  ∧ post (PodLimits pod opts) w (λ limits w', ∀ k z,
    view w' (Some limits) !! k = Some z →
    (∀ s, sumAt k (view w <$> limitLists (Containers (Spec pod))) = Some s →
          s ≤ z)
    ∧ (∀ c v, c ∈ InitContainers (Spec pod) →
              view w (Limits (Resources c)) !! k = Some v → v ≤ z)
    ∧ (sumAt k (view w <$> limitLists (Containers (Spec pod))) = Some z
       ∨ ∃ c, c ∈ InitContainers (Spec pod)
              ∧ view w (Limits (Resources c)) !! k = Some z)).
Proof.
  intros Hok Hsep Hov.
  assert (Hget : ∀ (get : Container → ResourceList) k z,
    merged w (get <$> Containers (Spec pod))
             (get <$> InitContainers (Spec pod)) !! k = Some z →
    (∀ s, sumAt k (view w <$> (get <$> Containers (Spec pod))) = Some s →
          s ≤ z)
    ∧ (∀ c v, c ∈ InitContainers (Spec pod) →
              view w (get c) !! k = Some v → v ≤ z)
    ∧ (sumAt k (view w <$> (get <$> Containers (Spec pod))) = Some z
       ∨ ∃ c, c ∈ InitContainers (Spec pod) ∧ view w (get c) !! k = Some z)).
  { intros get k z Hz.
    apply merged_is_max in Hz as (Hlow & Hall & Hmax).
    split; [done | split].
    - intros c v Hc Hv. apply (Hall (get c)); [| done].
      apply list_elem_of_fmap. by exists c.
    - destruct Hmax as [Hmax | (rl & Hin & Hrl)]; [by left |].
      apply list_elem_of_fmap in Hin as (c & -> & Hin).
      right. by exists c. }
  split.
  - eapply post_mono; [| by apply PodRequests_apart].
    intros reqs w' [HA _]. simpl. intros k z.
    rewrite (Acc_view_acc _ _ _ _ HA). unfold requestsOf.
    rewrite Hov, view_nil, sumList_empty_r.
    apply (Hget (λ c, Requests (Resources c))).
  - eapply post_mono; [| by apply PodLimits_apart].
    intros limits w' [HA _]. simpl. intros k z.
    rewrite (Acc_view_acc _ _ _ _ HA). unfold limitsOf.
    rewrite Hov, view_nil, growList_empty_r.
    apply (Hget (λ c, Limits (Resources c))).
Qed.

(** Regular containers requesting {cpu:1, memory:1Gi} and {cpu:2} and an
    init container requesting {cpu:5}: cpu is 5, the init container's
    number, and at least the sum 3 of the regular containers. *)
Lemma init_containers_are_a_floor_witness :
  post (PodRequests mixedPod None) (exWorld (λ _ l, l)) (λ reqs w',
    ∀ z, view w' (Some reqs) !! "cpu" = Some z → 3 ≤ z ∧ 5 ≤ z).
Proof.
  pose proof (init_containers_are_a_floor (exWorld (λ _ l, l)) mixedPod None)
    as [H _]; [solve_call_ok | solve_reuse_apart | reflexivity |].
  eapply post_mono; [| exact H].
  intros reqs w' Hk z Hz. simpl in Hk.
  destruct (Hk "cpu" z Hz) as (Hsum & Hinit & _). split.
  - apply Hsum. vm_compute. reflexivity.
  - apply (Hinit (exContainer None (Some 3%positive))); [left |].
    vm_compute. reflexivity.
Defined.

(** ** A pod without containers *)





(** ** Maps allocated, earlier results *)

Lemma Acc_dom_maps {St} (w0 w : World St) acc V :
  Acc w0 acc V w → dom (maps w) = dom (maps w0) ∪ {[acc]}.
Proof.
  intros HA. apply set_eq. intros r.
  rewrite elem_of_union, elem_of_singleton, !elem_of_dom.
  destruct (decide (r = acc)) as [-> | Hne].
  - split; [by right | intros _; apply (acc_here _ _ _ _ HA)].
  - rewrite (acc_maps _ _ _ _ HA r Hne). split; [by left |].
    by intros [? | ?].
Qed.

(** X7.  [PodRequests] and [PodLimits] never return nil, and they allocate
    at most one map: with nothing to reuse the result is a map that was not
    there before and is the only new map; with a map to reuse the result is
    that map and no map is allocated. *)
Theorem at_most_one_map_is_allocated {St} (w : World St) pod opts :
  call_ok w pod opts →
  post (PodRequests pod opts) w (λ reqs w',
    dom (maps w') = dom (maps w) ∪ {[reqs]} ∧
    match Reuse (orDefault opts) with
    | Some r => reqs = r ∧ dom (maps w') = dom (maps w)
    | None => reqs ∉ dom (maps w)
    end)
  ∧ post (PodLimits pod opts) w (λ limits w',
    dom (maps w') = dom (maps w) ∪ {[limits]} ∧
    match Reuse (orDefault opts) with
    | Some r => limits = r ∧ dom (maps w') = dom (maps w)
    | None => limits ∉ dom (maps w)
    end).
Proof.
  intros Hok. pose proof Hok as (_ & _ & _ & Hreuse).
  assert (Hpost : ∀ acc V (w' : World St),
    Acc w acc V w' ∧
    match Reuse (orDefault opts) with
    | Some r => acc = r
    | None => acc ∉ dom (maps w)
    end →
    dom (maps w') = dom (maps w) ∪ {[acc]} ∧
    match Reuse (orDefault opts) with
    | Some r => acc = r ∧ dom (maps w') = dom (maps w)
    | None => acc ∉ dom (maps w)
    end).
  { intros acc V w' [HA Hacc].
    pose proof (Acc_dom_maps _ _ _ _ HA) as Hdom. split; [done |].
    destruct (Reuse (orDefault opts)) as [r|]; [| done].
    subst acc. split; [done |]. rewrite Hdom. simpl in Hreuse.
    apply set_eq. intros x. rewrite elem_of_union, elem_of_singleton.
    split; [by intros [? | ->] | by left]. }
  split.
  - eapply post_mono; [| by apply PodRequests_Acc].
    intros reqs w' H. by apply (Hpost _ _ _ H).
  - eapply post_mono; [| by apply PodLimits_Acc].
    intros limits w' H. by apply (Hpost _ _ _ H).
Qed.

Lemma at_most_one_map_is_allocated_witness :
  post (PodRequests overheadPod (Some reuseOptions)) (exWorld (λ _ l, l))
    (λ reqs w', reqs = 7%positive
                ∧ dom (maps w') = dom (maps (exWorld (λ _ l, l))))
  ∧ post (PodLimits overheadPod None) (exWorld (λ _ l, l))
    (λ limits w', limits ∉ dom (maps (exWorld (λ _ l, l)))).
Proof.
  split.
  - destruct (at_most_one_map_is_allocated (exWorld (λ _ l, l)) overheadPod
                (Some reuseOptions)) as [H _]; [solve_call_ok |].
    eapply post_mono; [| exact H]. by intros reqs w' [_ ?].
  - destruct (at_most_one_map_is_allocated (exWorld (λ _ l, l)) overheadPod
                None) as [_ H]; [solve_call_ok |].
    eapply post_mono; [| exact H]. by intros limits w' [_ ?].
Defined.

Lemma later_call_keeps {St} (w1 w2 : World St) r1 r2 V :
  heap_closed w1 → Acc w1 r2 V w2 → r2 ≠ r1 →
  listOf w2 (Some r1) = listOf w1 (Some r1)
  ∧ view w2 (Some r1) = view w1 (Some r1).
Proof.
  intros Hcl HA Hne. split.
  - apply (Acc_listOf _ _ _ _ _ HA). congruence.
  - apply (Acc_view_input _ _ _ _ _ Hcl HA). congruence.
Qed.

(** X8.  A result is left alone by later calls that do not reuse it: after
    [PodRequests] has returned a map, a call of [PodLimits] or of
    [PodRequests], for any pod and with any options whose map to reuse is
    not that result, returns another map and leaves the entries and the
    numbers of the first result as they were.  In particular two calls with
    nothing to reuse never share their result. *)
Theorem earlier_result_is_kept {St} (w : World St) pod opts pod' opts' :
  call_ok w pod opts → call_ok w pod' opts' →
  post (PodRequests pod opts) w (λ reqs w1,
    Reuse (orDefault opts') ≠ Some reqs →
    post (PodLimits pod' opts') w1 (λ limits w2,
      limits ≠ reqs ∧
      listOf w2 (Some reqs) = listOf w1 (Some reqs) ∧
      view w2 (Some reqs) = view w1 (Some reqs))
    ∧ post (PodRequests pod' opts') w1 (λ reqs' w2,
      reqs' ≠ reqs ∧
      listOf w2 (Some reqs) = listOf w1 (Some reqs) ∧
      view w2 (Some reqs) = view w1 (Some reqs))).
Proof.
  intros Hok Hok'.
  eapply post_mono; [| by apply PodRequests_Acc].
  intros reqs w1 [HA1 _] Hother. simpl.
  pose proof (call_ok_again _ _ _ _ _ _ Hok' HA1) as Hok1.
  pose proof (Acc_closed _ _ _ _ (proj1 Hok) HA1) as Hcl1.
  assert (Hpost : ∀ acc V (w2 : World St),
    Acc w1 acc V w2 ∧
    match Reuse (orDefault opts') with
    | Some r => acc = r
    | None => acc ∉ dom (maps w1)
    end →
    acc ≠ reqs ∧
    listOf w2 (Some reqs) = listOf w1 (Some reqs) ∧
    view w2 (Some reqs) = view w1 (Some reqs)).
  { intros acc V w2 [HA2 Hacc].
    assert (Hne : acc ≠ reqs).
    { destruct (Reuse (orDefault opts')) as [r|]; [congruence |].
      intros ->. apply Hacc, elem_of_dom, (acc_here _ _ _ _ HA1). }
    split; [done |]. by apply (later_call_keeps w1 w2 reqs acc V). }
  split.
  - eapply post_mono; [| by apply PodLimits_Acc].
    intros limits w2 H. by apply (Hpost _ _ _ H).
  - eapply post_mono; [| by apply PodRequests_Acc].
    intros reqs' w2 H. by apply (Hpost _ _ _ H).
Qed.

(** The requests of [overheadPod], then its limits, both with nil
    options. *)
Lemma earlier_result_is_kept_witness :
  post (PodRequests overheadPod None) (exWorld (λ _ l, l)) (λ reqs w1,
    post (PodLimits overheadPod None) w1 (λ limits w2,
      limits ≠ reqs ∧
      view w2 (Some reqs) = {["cpu" := 4; "memory" := 1073741825]} ∧
      view w2 (Some limits) = {["cpu" := 3; "memory" := 0]})).
Proof.
  pose proof (earlier_result_is_kept (exWorld (λ _ l, l)) overheadPod None
                overheadPod None) as H.
  unfold post in H |- *.
  destruct H as [(Hne & _ & Hview) _]; [solve_call_ok | solve_call_ok | done |].
  split; [done |]. split.
  - rewrite Hview. vm_compute. reflexivity.
  - vm_compute. reflexivity.
Defined.

(** ** The map to reuse as a container's own list *)

Lemma cur_acc {St} (w : World St) acc V : cur w acc V (Some acc) = V.
Proof. unfold cur. by rewrite decide_True. Qed.

(** X9.  When the map to reuse is also the request list of the last regular
    container, that container's requests are lost and what the containers
    before it add up to is counted twice: the accumulator is added to
    itself.  (No init containers, no overhead taking part, and the map is
    the list of no other container.) *)
Theorem reused_list_of_a_container_doubles {St} (w : World St) pod opts r
    cs c :
  call_ok w pod opts →
  Reuse (orDefault opts) = Some r →
  Containers (Spec pod) = cs ++ [c] →
  Requests (Resources c) = Some r →
  Some r ∉ requestLists cs →
  InitContainers (Spec pod) = [] →
  overheadOf pod opts = None →
  post (PodRequests pod opts) w (λ reqs w', reqs = r ∧ ∀ k,
    view w' (Some reqs) !! k
    = (λ z, 2 * z) <$> sumAt k (view w <$> requestLists cs)).
Proof.
  intros Hok Hr Hc Hreq Hcs Hi Hov.
  eapply post_mono; [| by apply PodRequests_Acc].
  intros reqs w' [HA Hacc]. simpl. rewrite Hr in Hacc. subst reqs.
  split; [done |]. intros k.
  rewrite (Acc_view_acc _ _ _ _ HA). unfold requestsOfA, mergedA.
  rewrite Hc, Hi, Hov. unfold requestLists. rewrite fmap_app, foldl_app.
  simpl. rewrite Hreq, cur_nil, sumList_empty_r.
  rewrite cur_acc.
  rewrite (fold_cur_apart sumList)
    by (intros rl Hin ->; by apply Hcs).
  rewrite lookup_sumList, fold_sumList_lookup, lookup_empty.
  unfold sumAt. destruct (present k _); simpl; [done |].
  f_equal. lia.
Qed.

(** Containers requesting {cpu:2} and then the caller's map 7, which is
    also the map to reuse: the result is {cpu:4}, and what map 7 held is
    gone. *)
Lemma reused_list_of_a_container_doubles_witness :
  post (PodRequests
          (mkPod (mkPodSpec [exContainer None (Some 2%positive);
                             exContainer None (Some 7%positive)] [] None))
          (Some reuseOptions)) (exWorld (λ _ l, l))
    (λ reqs w', reqs = 7%positive ∧
                view w' (Some reqs) !! "cpu" = Some 4 ∧
                view w' (Some reqs) !! "gpu" = None).
Proof.
  eapply post_mono;
    [| apply (reused_list_of_a_container_doubles (exWorld (λ _ l, l))
                (mkPod (mkPodSpec [exContainer None (Some 2%positive);
                                   exContainer None (Some 7%positive)]
                          [] None))
                (Some reuseOptions) 7%positive
                [exContainer None (Some 2%positive)]
                (exContainer None (Some 7%positive)));
       [solve_call_ok | reflexivity | reflexivity | reflexivity
       | apply (bool_decide_unpack _); vm_compute; exact I
       | reflexivity | reflexivity]].
  intros reqs w' [-> H]. simpl in H. rewrite !H.
  repeat split; vm_compute; reflexivity.
Defined.

(** ** The annotation reader *)

(** X18.  [GetAvoidPodsFromNodeAnnotations] decodes nothing and returns the
    zero value without an error when the annotation is not there or is the
    empty string, which covers the nil and the empty map; so the test on the
    length of the map changes nothing.  Otherwise it returns what the
    decoder made of the annotation, started from the zero value, together
    with the decoder's error: on a failure the value is what the decoder
    left, not the zero value. *)
Theorem GetAvoidPods_reads_one_annotation {AvoidPods Error : Type}
    (zeroAvoidPods : AvoidPods) (key : string)
    (Unmarshal : string → AvoidPods → AvoidPods * option Error)
    (annotations : gmap string string) :
  GetAvoidPodsFromNodeAnnotations zeroAvoidPods key Unmarshal annotations
  = match annotations !! key with
    | None => (zeroAvoidPods, None)
    | Some text =>
        if String.eqb text "" then (zeroAvoidPods, None)
        else Unmarshal text zeroAvoidPods
    end.
Proof.
  unfold GetAvoidPodsFromNodeAnnotations.
  destruct (annotations !! key) as [text|] eqn:Hk; simpl.
  - assert (Hsize : (0 < size annotations)%nat).
    { destruct (decide (size annotations = 0%nat)) as [Hz | Hz]; [| lia].
      apply map_size_empty_iff in Hz. subst annotations.
      by rewrite lookup_empty in Hk. }
    rewrite bool_decide_eq_true_2 by done. simpl.
    destruct (String.eqb text ""); simpl; [done |].
    by destruct (Unmarshal text zeroAvoidPods) as [v [e|]].
  - by rewrite andb_false_r.
Qed.

(** The annotation of the examples: absent, empty, well formed and
    malformed. *)
Example GetAvoidPods_examples :
  GetAvoidPodsFromNodeAnnotations [] "avoid" exampleUnmarshal ∅ = ([], None)
  ∧ GetAvoidPodsFromNodeAnnotations [] "avoid" exampleUnmarshal
      {["other" := "x"]} = ([], None)
  ∧ GetAvoidPodsFromNodeAnnotations [] "avoid" exampleUnmarshal
      {["avoid" := ""]} = ([], None)
  ∧ GetAvoidPodsFromNodeAnnotations [] "avoid" exampleUnmarshal
      {["avoid" := "{}"]} = ([], None)
  ∧ GetAvoidPodsFromNodeAnnotations [] "avoid" exampleUnmarshal
      {["avoid" := "{"]} = ([], Some "invalid").
Proof. repeat split; vm_compute; reflexivity. Qed.

(** ** Numbers that are not negative *)

Lemma nonNegative_sumList V N :
  nonNegative V → nonNegative N → nonNegative (sumList V N).
Proof.
  intros HV HN k z. rewrite lookup_sumList.
  destruct (V !! k) as [a|] eqn:Ha, (N !! k) as [b|] eqn:Hb;
    intros [= <-] || intros [=];
    try specialize (HV k a Ha); try specialize (HN k b Hb);
    simpl in *; lia.
Qed.

Lemma nonNegative_maxList V N :
  nonNegative V → nonNegative N → nonNegative (maxList V N).
Proof.
  intros HV HN k z. rewrite lookup_maxList.
  destruct (V !! k) as [a|] eqn:Ha, (N !! k) as [b|] eqn:Hb;
    intros [= <-] || intros [=];
    try specialize (HV k a Ha); try specialize (HN k b Hb);
    simpl in *; lia.
Qed.

Lemma nonNegative_growList V O :
  nonNegative V → nonNegative O → nonNegative (growList V O).
Proof.
  intros HV HO k z. rewrite lookup_growList.
  destruct (V !! k) as [a|] eqn:Ha; [| intros [=]].
  specialize (HV k a Ha). simpl in HV. intros [= <-].
  destruct (a =? 0); [done |].
  destruct (O !! k) as [b|] eqn:Hb; [| done].
  specialize (HO k b Hb). simpl in HO. lia.
Qed.

Lemma nonNegative_cur {St} (w : World St) acc V rl :
  nonNegative V → (rl ≠ Some acc → nonNegative (view w rl)) →
  nonNegative (cur w acc V rl).
Proof. intros HV Hrl. unfold cur. case_decide; [done | by apply Hrl]. Qed.

Lemma nonNegative_foldA {St}
    (F : gmap string Z → gmap string Z → gmap string Z)
    (w : World St) acc V (l : list ResourceList) :
  (∀ V N, nonNegative V → nonNegative N → nonNegative (F V N)) →
  nonNegative V →
  (∀ rl, rl ∈ l → nonNegative (view w rl)) →
  nonNegative (foldl (λ V rl, F V (cur w acc V rl)) V l).
Proof.
  intros HF. revert V. induction l as [|rl l IH]; intros V HV Hl; simpl.
  - done.
  - apply IH.
    + apply HF; [done |]. apply nonNegative_cur; [done |].
      intros _. apply Hl. left.
    + intros rl' Hin. apply Hl. by right.
Qed.

(** X11.  No negative number comes out when none goes in: when no list of
    the pod holds a negative number, neither does the result of
    [PodRequests] nor the result of [PodLimits], whatever the map to reuse
    is. *)
Theorem no_negative_number_comes_out {St} (w : World St) pod opts :
  call_ok w pod opts →
  (∀ rl, rl ∈ podLists pod → nonNegative (view w rl)) →
  post (PodRequests pod opts) w (λ reqs w',
    nonNegative (view w' (Some reqs)))
  ∧ post (PodLimits pod opts) w (λ limits w',
    nonNegative (view w' (Some limits))).
Proof.
  intros Hok Hpos.
  assert (Hmerged : ∀ acc regular init,
    (∀ rl, rl ∈ regular ++ init → rl ∈ podLists pod) →
    nonNegative (mergedA w acc regular init)).
  { intros acc regular init Hin. unfold mergedA.
    apply nonNegative_foldA; [apply nonNegative_maxList | |].
    - apply nonNegative_foldA; [apply nonNegative_sumList | |].
      + intros k z. by rewrite lookup_empty.
      + intros rl Hrl. apply Hpos, Hin, elem_of_app. by left.
    - intros rl Hrl. apply Hpos, Hin, elem_of_app. by right. }
  assert (Hov : ∀ acc V, nonNegative V →
                         nonNegative (cur w acc V (overheadOf pod opts))).
  { intros acc V HV. apply nonNegative_cur; [done |]. intros _.
    destruct (overheadOf_in_podLists pod opts) as [-> | Hin].
    - rewrite view_nil. intros k z. by rewrite lookup_empty.
    - by apply Hpos. }
  split.
  - eapply post_mono; [| by apply PodRequests_Acc].
    intros reqs w' [HA _]. simpl. rewrite (Acc_view_acc _ _ _ _ HA).
    unfold requestsOfA. simpl.
    assert (HL := Hmerged reqs _ _ (requestLists_in_podLists pod)).
    apply nonNegative_sumList; [done | by apply Hov].
  - eapply post_mono; [| by apply PodLimits_Acc].
    intros limits w' [HA _]. simpl. rewrite (Acc_view_acc _ _ _ _ HA).
    unfold limitsOfA. simpl.
    assert (HL := Hmerged limits _ _ (limitLists_in_podLists pod)).
    apply nonNegative_growList; [done | by apply Hov].
Qed.

Lemma no_negative_number_comes_out_witness :
  post (PodRequests overheadPod (Some aliasOptions)) (exWorld (λ _ l, l))
    (λ reqs w', nonNegative (view w' (Some reqs))).
Proof.
  refine (proj1 (no_negative_number_comes_out (exWorld (λ _ l, l)) overheadPod
                   (Some aliasOptions) _ _)).
  - solve_call_ok.
  - intros rl Hin.
    repeat (apply elem_of_cons in Hin as [-> | Hin]);
      [.. | by apply elem_of_nil in Hin];
      apply (bool_decide_unpack _); vm_compute; exact I.
Defined.

(** ** What the result depends on *)

Lemma merged_agree {St} (w1 w2 : World St) regular init :
  (∀ rl, rl ∈ regular ++ init → view w2 rl = view w1 rl) →
  merged w2 regular init = merged w1 regular init.
Proof.
  intros Hagree. unfold merged.
  assert (Hr : view w2 <$> regular = view w1 <$> regular).
  { apply list_fmap_ext. intros i rl Hi. apply Hagree, elem_of_app. left.
    by eapply list_elem_of_lookup_2. }
  assert (Hi : view w2 <$> init = view w1 <$> init).
  { apply list_fmap_ext. intros i rl Hi. apply Hagree, elem_of_app. right.
    by eapply list_elem_of_lookup_2. }
  by rewrite Hr, Hi.
Qed.

(** X6.  The numbers [PodRequests] and [PodLimits] return depend on nothing
    but the numbers in the pod's lists: from two stores in which the lists
    of the pod hold the same numbers, whatever the order in which maps are
    ranged over, the way quantities are held and the other maps are, the
    results hold the same numbers (the map to reuse not being one of the
    pod's lists). *)
Theorem result_depends_on_the_numbers_only {St} (w1 w2 : World St) pod opts :
  call_ok w1 pod opts → call_ok w2 pod opts → reuse_apart pod opts →
  (∀ rl, rl ∈ podLists pod → view w2 rl = view w1 rl) →
  post (PodRequests pod opts) w1 (λ reqs1 w1',
    post (PodRequests pod opts) w2 (λ reqs2 w2',
      view w2' (Some reqs2) = view w1' (Some reqs1)))
  ∧ post (PodLimits pod opts) w1 (λ limits1 w1',
    post (PodLimits pod opts) w2 (λ limits2 w2',
      view w2' (Some limits2) = view w1' (Some limits1))).
Proof.
  intros Hok1 Hok2 Hsep Hagree.
  assert (Hov : view w2 (overheadOf pod opts) = view w1 (overheadOf pod opts)).
  { destruct (overheadOf_in_podLists pod opts) as [-> | Hin].
    - by rewrite !view_nil.
    - by apply Hagree. }
  split.
  - pose proof (PodRequests_apart w1 pod opts Hok1 Hsep) as H1.
    pose proof (PodRequests_apart w2 pod opts Hok2 Hsep) as H2.
    unfold post in *. destruct H1 as [HA1 _], H2 as [HA2 _].
    rewrite (Acc_view_acc _ _ _ _ HA1), (Acc_view_acc _ _ _ _ HA2).
    unfold requestsOf. rewrite Hov. f_equal.
    apply merged_agree. intros rl Hin.
    by apply Hagree, requestLists_in_podLists.
  - pose proof (PodLimits_apart w1 pod opts Hok1 Hsep) as H1.
    pose proof (PodLimits_apart w2 pod opts Hok2 Hsep) as H2.
    unfold post in *. destruct H1 as [HA1 _], H2 as [HA2 _].
    rewrite (Acc_view_acc _ _ _ _ HA1), (Acc_view_acc _ _ _ _ HA2).
    unfold limitsOf. rewrite Hov. f_equal.
    apply merged_agree. intros rl Hin.
    by apply Hagree, limitLists_in_podLists.
Qed.

(** The store of the examples ranged over in the order the entries come
    and in the reverse order. *)
Lemma result_depends_on_the_numbers_only_witness :
  post (PodRequests overheadPod None) (exWorld (λ _ l, l)) (λ reqs1 w1',
    post (PodRequests overheadPod None) (exWorld (λ _ l, reverse l))
      (λ reqs2 w2', view w2' (Some reqs2) = view w1' (Some reqs1))).
Proof.
  refine (proj1 (result_depends_on_the_numbers_only (exWorld (λ _ l, l))
                   (exWorld (λ _ l, reverse l)) overheadPod None _ _ _ _)).
  - solve_call_ok.
  - unfold call_ok; split; [| split; [| split]].
    + apply (bool_decide_unpack _). vm_compute. exact I.
    + intros n l. apply reverse_Permutation.
    + apply (bool_decide_unpack _). vm_compute. exact I.
    + exact I.
  - solve_reuse_apart.
  - intros rl _. reflexivity.
Defined.
